(** * markov_model.py: the prefix-tree and the dense-table Markov models

    A shallow embedding of [src/markov_model.py].  Python strings are lists
    of code points, Python [int]s are [Z], a raised exception is the [Err]
    branch of [result].  The insertion-ordered dictionaries of [Node] are
    association lists (their order is observable through [next_char] and
    [to_string]); the two dictionaries of [MarkovModelTables] are only read
    by key in what follows and are finite maps: its [to_string], which
    shows their insertion order and which the script never calls, is left
    out. *)

From Stdlib Require Import ZArith Lia String Ascii DecimalString Sorted.
From stdpp Require Import base option list gmap.

Set Warnings "-register-all".
Local Open Scope Z_scope.

(** ** Python values and exceptions *)

(** A character is its code point; [ord] is the injection into [int]. *)
Abbreviation symbol := nat (only parsing).
Definition ord (c : symbol) : Z := Z.of_nat c.

Definition py_str (s : string) : list symbol :=
  map nat_of_ascii (list_ascii_of_string s).

Inductive pyerr : Type :=
  | KeyError
  | IndexError
  | AttributeError
  | TypeError.

Inductive result (A : Type) : Type :=
  | Ok (a : A)
  | Err (e : pyerr).
Arguments Ok {A} a.
Arguments Err {A} e.

(** The exception monad: [x ← r; k] runs [k] unless [r] has raised. *)
#[global] Instance result_bind : MBind result := λ A B f r,
  match r with
  | Ok a => f a
  | Err e => Err e
  end.
#[global] Instance result_ret : MRet result := λ A a, Ok a.

Definition is_Ok {A : Type} (r : result A) : Prop := ∃ a, r = Ok a.

Definition or_raise {A : Type} (e : pyerr) (o : option A) : result A :=
  match o with
  | Some a => Ok a
  | None => Err e
  end.

(** [s[i]] on a list or a string: a negative index counts from the end,
    anything out of range raises [IndexError]. *)
Definition py_index {A : Type} (s : list A) (i : Z) : result A :=
  let n := Z.of_nat (length s) in
  let j := if i <? 0 then i + n else i in
  if (0 <=? j) && (j <? n) then or_raise IndexError (s !! Z.to_nat j)
  else Err IndexError.

(** A slice bound is brought into [0 .. len]: negative bounds count from
    the end, then everything is clamped.  A missing bound is [None]. *)
Definition py_clamp (n : nat) (i : Z) : nat :=
  if i <? 0 then Z.to_nat (Z.max 0 (i + Z.of_nat n))
  else Nat.min n (Z.to_nat i).

Definition py_slice {A : Type} (s : list A) (lo hi : option Z) : list A :=
  let n := length s in
  let a := from_option (py_clamp n) 0%nat lo in
  let b := from_option (py_clamp n) n hi in
  take (b - a) (drop a s).

(** [for x in xs: st = body(x, st)], stopping at the first exception. *)
Fixpoint for_each {X S : Type} (body : X → S → result S) (xs : list X) (st : S)
    : result S :=
  match xs with
  | [] => Ok st
  | x :: xs' => st' ← body x st; for_each body xs' st'
  end.

(** [sum] of a list of integers. *)
Definition py_sum (l : list Z) : Z := foldr Z.add 0 l.

(** [str(v)] for an integer. *)
Definition str_int (v : Z) : list symbol :=
  py_str (NilZero.string_of_int (Z.to_int v)).

(** [sep.join(parts)]. *)
Fixpoint py_join (sep : list symbol) (parts : list (list symbol)) : list symbol :=
  match parts with
  | [] => []
  | [p] => p
  | p :: rest => p ++ sep ++ py_join sep rest
  end.

(** [s.split(sep)] for a one-character separator: one piece more than
    there are separators, empty pieces kept. *)
Fixpoint py_split (sep : symbol) (s : list symbol) : list (list symbol) :=
  match s with
  | [] => [[]]
  | c :: s' =>
      if decide (c = sep) then [] :: py_split sep s'
      else match py_split sep s' with
           | piece :: rest => (c :: piece) :: rest
           | [] => [[c]]
           end
  end.

(** [<=] on strings: lexicographic on code points. *)
Fixpoint str_le (a b : list symbol) : bool :=
  match a, b with
  | [], _ => true
  | _ :: _, [] => false
  | x :: a', y :: b' =>
      if (x <? y)%nat then true
      else if (y <? x)%nat then false
      else str_le a' b'
  end.

Fixpoint sorted_insert (x : list symbol) (l : list (list symbol))
    : list (list symbol) :=
  match l with
  | [] => [x]
  | y :: l' => if str_le x y then x :: l else y :: sorted_insert x l'
  end.

(** [sorted(l)] on strings.  Equal strings are indistinguishable, so every
    sorting algorithm returns the list that Python's does. *)
Definition py_sorted (l : list (list symbol)) : list (list symbol) :=
  foldr sorted_insert [] l.

(** ** Insertion-ordered dictionaries (the [dict]s of [Node]) *)

Section dict.
Context {K V : Type} `{EqDecision K}.

Fixpoint dict_get (k : K) (d : list (K * V)) : option V :=
  match d with
  | [] => None
  | (k', v) :: d' => if decide (k = k') then Some v else dict_get k d'
  end.

(** [d[k] = v]: an existing key keeps its place, a new one goes last. *)
Fixpoint dict_set (k : K) (v : V) (d : list (K * V)) : list (K * V) :=
  match d with
  | [] => [(k, v)]
  | (k', v') :: d' =>
      if decide (k = k') then (k, v) :: d' else (k', v') :: dict_set k v d'
  end.

Definition dict_keys (d : list (K * V)) : list K := d.*1.
Definition dict_values (d : list (K * V)) : list V := d.*2.
End dict.

(** ** class Node *)

Module Node.

Inductive t : Type := mk {
  _letter : option symbol;
  _neighbours : list (symbol * t);
  _letters_count : list (symbol * Z)
}.

(** [Node(letter)] *)
Definition __init__ (letter : option symbol) : t :=
  {| _letter := letter; _neighbours := []; _letters_count := [] |}.

(** [add_son] mutates [self] and returns the son; the result is the new
    [self] and the son it now holds. *)
Definition add_son (self : t) (letter : symbol) : result (t * t) :=
  let self1 :=
    match dict_get letter (_neighbours self) with
    | None =>
        {| _letter := _letter self;
           _neighbours := dict_set letter (__init__ (Some letter)) (_neighbours self);
           _letters_count := dict_set letter 0 (_letters_count self) |}
    | Some _ => self
    end in
  c ← or_raise KeyError (dict_get letter (_letters_count self1));
  let self2 :=
    {| _letter := _letter self1;
       _neighbours := _neighbours self1;
       _letters_count := dict_set letter (c + 1) (_letters_count self1) |} in
  son ← or_raise KeyError (dict_get letter (_neighbours self2));
  Ok (self2, son).

(** [get_son] falls off its end, returning Python's [None], when the
    letter has no son. *)
Definition get_son (self : t) (letter : symbol) : option t :=
  dict_get letter (_neighbours self).

Definition get_sons (self : t) : list t := dict_values (_neighbours self).

Definition get_letter_count (self : t) (letter : symbol) : Z :=
  match dict_get letter (_letters_count self) with
  | Some count => count
  | None => 0
  end.

Definition get_letters_count (self : t) : list (symbol * Z) :=
  _letters_count self.

(** The son reached by [add_son] is the very object stored in
    [_neighbours]: what is done to it afterwards is seen from [self]. *)
Definition store_son (self : t) (letter : symbol) (son : t) : t :=
  {| _letter := _letter self;
     _neighbours := dict_set letter son (_neighbours self);
     _letters_count := _letters_count self |}.

End Node.

(** ** Window extraction, shared by both constructors

    [text[left_idx:right_idx]] when the window fits, else the tail of the
    text followed by [text[:right_idx % len(text)]]. *)
Definition cyclic_window (text : list symbol) (width : Z) (left_idx : nat)
    : list symbol :=
  let text_len := Z.of_nat (length text) in
  let right_idx := Z.of_nat left_idx + width in
  if right_idx <? text_len
  then py_slice text (Some (Z.of_nat left_idx)) (Some right_idx)
  else py_slice text (Some (Z.of_nat left_idx)) (Some text_len)
       ++ py_slice text None (Some (right_idx `mod` text_len)).

(** ** class MarkovModelTree *)

Module MarkovModelTree.

Record t : Type := mk {
  _k : Z;
  _root : Node.t
}.

(** [node = root; for ch in k_gram: node = node.add_son(ch)] *)
Fixpoint add_path (k_gram : list symbol) (node : Node.t) : result Node.t :=
  match k_gram with
  | [] => Ok node
  | ch :: rest =>
      '(node', son) ← Node.add_son node ch;
      son' ← add_path rest son;
      Ok (Node.store_son node' ch son')
  end.

Definition __init__ (text : list symbol) (k : Z) : result t :=
  root ← for_each
           (λ left_idx root, add_path (cyclic_window text (k + 1) left_idx) root)
           (seq 0 (length text)) (Node.__init__ None);
  Ok {| _k := k; _root := root |}.

Definition order (self : t) : Z := _k self.

(** [for ch in path: node = node.get_son(ch)]; [node] may have become
    [None], and calling [get_son] on [None] raises [AttributeError]. *)
Fixpoint walk (node : option Node.t) (path : list symbol)
    : result (option Node.t) :=
  match path with
  | [] => Ok node
  | ch :: rest =>
      match node with
      | None => Err AttributeError
      | Some nd => walk (Node.get_son nd ch) rest
      end
  end.

(** The loop runs over [k_gram[0 .. len-2]]; [k_gram[-1]] is evaluated
    after the method has been looked up on [node]. *)
Definition k_freq (self : t) (k_gram : list symbol) : result Z :=
  node ← walk (Some (_root self)) (take (length k_gram - 1) k_gram);
  match node with
  | None => Err AttributeError
  | Some nd =>
      last_ch ← py_index k_gram (-1);
      Ok (Node.get_letter_count nd last_ch)
  end.

Definition k_follow_freq (self : t) (k_gram : list symbol) (letter : symbol)
    : result Z :=
  node ← walk (Some (_root self)) k_gram;
  match node with
  | None => Err AttributeError
  | Some nd => Ok (Node.get_letter_count nd letter)
  end.

(** [idx = stdrandom.discrete(list(counts.values()))], then
    [list(counts.keys())[idx]].  [discrete] is the sampler's draw for this
    call, given the weights. *)
Definition next_char (discrete : list Z → Z) (self : t) (k_gram : list symbol)
    : result symbol :=
  node ← walk (Some (_root self)) k_gram;
  match node with
  | None => Err AttributeError
  | Some nd =>
      let idx := discrete (dict_values (Node.get_letters_count nd)) in
      py_index (dict_keys (Node.get_letters_count nd)) idx
  end.

(** [f"{path}: {' '.join([f'{k} {v}' for k, v in counts.items()])}\n"] *)
Definition format_line (path : list symbol) (counts : list (symbol * Z))
    : list symbol :=
  path ++ py_str ": "
    ++ py_join (py_str " ") (map (λ kv, kv.1 :: py_str " " ++ str_int kv.2) counts)
    ++ py_str (String "010" EmptyString).

(** The [StringContainer] is threaded through: [buf] is its content on
    entry, the result its content on exit.  The inner loop runs over
    [node.get_sons()], the values of [_neighbours] in insertion order;
    [path + n._letter] raises [TypeError] on a son without a letter. *)
Fixpoint _stringify (level : Z) (node : Node.t) (path : list symbol)
    (buf : list symbol) {struct node} : result (list symbol) :=
  if decide (level = 0)
  then Ok (buf ++ format_line path (Node.get_letters_count node))
  else
    (fix sons (ns : list (symbol * Node.t)) (buf : list symbol)
         : result (list symbol) :=
       match ns with
       | [] => Ok buf
       | (_, n) :: ns' =>
           letter ← or_raise TypeError (Node._letter n);
           buf' ← _stringify (level - 1) n (path ++ [letter]) buf;
           sons ns' buf'
       end) (Node._neighbours node) buf.

Definition to_string (self : t) : result (list symbol) :=
  buf ← _stringify (_k self) (_root self) [] [];
  Ok (py_join (py_str (String "010" EmptyString)) (py_sorted (py_split 10%nat buf))).

End MarkovModelTree.

(** ** class MarkovModelTables *)

(** [[0] * 128] *)
Definition zero_row : list Z := replicate 128 0.

Module MarkovModelTables.

Record t : Type := mk {
  _k : Z;
  _k_gram_count : gmap (list symbol) Z;
  _k_gram_letter : gmap (list symbol) (list Z)
}.

(** One round of the constructor's loop, on the two dictionaries.  Each
    key of [_k_gram_letter] owns its own 128-entry list, so the update in
    place of one row is an update of that key alone. *)
Definition init_step (text : list symbol) (k : Z) (left_idx : nat)
    (st : gmap (list symbol) Z * gmap (list symbol) (list Z))
    : result (gmap (list symbol) Z * gmap (list symbol) (list Z)) :=
  let text_len := Z.of_nat (length text) in
  let right_idx := Z.of_nat left_idx + k in
  let k_gram := cyclic_window text k left_idx in
  let count1 :=
    match st.1 !! k_gram with
    | None => <[k_gram := 0]> st.1
    | Some _ => st.1
    end in
  let letter1 :=
    match st.2 !! k_gram with
    | None => <[k_gram := zero_row]> st.2
    | Some _ => st.2
    end in
  c ← or_raise KeyError (count1 !! k_gram);
  let count2 := <[k_gram := c + 1]> count1 in
  row ← or_raise KeyError (letter1 !! k_gram);
  ch ← py_index text (right_idx `mod` text_len);
  v ← py_index row (ord ch);
  Ok (count2, <[k_gram := <[Z.to_nat (ord ch) := v + 1]> row]> letter1).

Definition __init__ (text : list symbol) (k : Z) : result t :=
  st ← for_each (init_step text k) (seq 0 (length text)) (∅, ∅);
  Ok {| _k := k; _k_gram_count := st.1; _k_gram_letter := st.2 |}.

Definition order (self : t) : Z := _k self.

Definition k_freq (self : t) (k_gram : list symbol) : result Z :=
  or_raise KeyError (_k_gram_count self !! k_gram).

Definition k_follow_freq (self : t) (k_gram : list symbol) (letter : symbol)
    : result Z :=
  row ← or_raise KeyError (_k_gram_letter self !! k_gram);
  py_index row (ord letter).

End MarkovModelTables.

(** ** The script: both models, then the random walk

    [stdrandom] is not part of the repository; its [discrete] is a
    parameter.  [discrete i ws] is what the sampler returns at the [i]-th
    round of the walk when given the weights [ws]: any dependence on earlier
    draws or on a seed is a dependence on [i]. *)

(** Lines 181-187: the walk on the tree model. *)
Definition generate (discrete : nat → list Z → Z) (mm : MarkovModelTree.t)
    (txt : list symbol) (order trajectory : Z) : result (list symbol) :=
  let state := py_slice txt None (Some order) in
  let tj := state in
  st ← for_each
         (λ i (st : list symbol * list symbol),
            c ← MarkovModelTree.next_char (discrete i) mm st.1;
            Ok (py_slice st.1 (Some 1) None ++ [c], st.2 ++ [c]))
         (seq 0 (Z.to_nat (trajectory - order))) (state, tj);
  Ok st.2.

(** Lines 178-189, from the text already read; the result is what is
    printed. *)
Definition main (discrete : nat → list Z → Z) (order trajectory : Z)
    (txt : list symbol) : result (list symbol) :=
  mm ← MarkovModelTree.__init__ txt order;
  mmt ← MarkovModelTables.__init__ txt order;
  generate discrete mm txt order trajectory.

(** Modelled from the spec: [stdrandom.discrete] is missing from the
    sources; section 4.3 has it return an index of the weight list, chosen
    with probability proportional to its weight, so an index of positive
    weight whenever there is one. *)
Definition sampler_ok (discrete : nat → list Z → Z) : Prop :=
  ∀ i ws, (∃ w, w ∈ ws ∧ 0 < w) →
    ∃ w, 0 ≤ discrete i ws ∧ ws !! Z.to_nat (discrete i ws) = Some w ∧ 0 < w.

(** A sampler to run examples with: the first index of positive weight. *)
Fixpoint first_positive (ws : list Z) : Z :=
  match ws with
  | [] => 0
  | w :: ws' => if 0 <? w then 0 else 1 + first_positive ws'
  end.

(** * Specification vocabulary *)

(** A node is well formed when its two dictionaries have the same keys in
    the same order, and so on below it. *)
Inductive wf : Node.t → Prop :=
  | wf_node letter ns cs :
      dict_keys ns = dict_keys cs →
      Forall wf (dict_values ns) →
      wf (Node.mk letter ns cs).

(** The son that [add_son] returns: the one already there, or a new one. *)
Definition son_or_new (nd : Node.t) (ch : symbol) : Node.t :=
  default (Node.__init__ (Some ch)) (Node.get_son nd ch).

(** The node at the end of a path, if every edge of it is there. *)
Fixpoint descend (nd : Node.t) (path : list symbol) : option Node.t :=
  match path with
  | [] => Some nd
  | ch :: rest => Node.get_son nd ch ≫= λ son, descend son rest
  end.

(** The count recorded for [c] at the end of [path]; zero without one. *)
Definition count_at (nd : Node.t) (path : list symbol) (c : symbol) : Z :=
  from_option (λ x, Node.get_letter_count x c) 0 (descend nd path).

(** One if the proposition holds, zero otherwise. *)
Definition ind (P : Prop) `{Decision P} : Z := if decide P then 1 else 0.

(** How many of the positions satisfy [P]. *)
Fixpoint tally (P : nat → Prop) `{∀ i, Decision (P i)} (positions : list nat) : Z :=
  match positions with
  | [] => 0
  | i :: rest => ind (P i) + tally P rest
  end.

(** The [w] symbols from position [i] on, read around the text. *)
Definition cyc (text : list symbol) (i w : nat) : list symbol :=
  take w (drop i (text ++ text)).

(** The symbol that follows the [k]-gram of position [left_idx]:
    [text[right_idx % text_len]]. *)
Definition successor_at (text : list symbol) (k : Z) (left_idx : nat)
    : result symbol :=
  py_index text ((Z.of_nat left_idx + k) `mod` Z.of_nat (length text)).

(** The entry for [s] in the row of [g], zero without one. *)
Definition cell (letters : gmap (list symbol) (list Z)) (g : list symbol)
    (s : symbol) : Z :=
  default 0 (letters !! g ≫= λ row, row !! s).

(** Every row of the successor table has 128 entries. *)
Definition rows_128 (letters : gmap (list symbol) (list Z)) : Prop :=
  ∀ g row, letters !! g = Some row → length row = 128%nat.

(** Every row sums to the count of its key, and the keys are the same. *)
Definition rows_sum_to_count (st : gmap (list symbol) Z * gmap (list symbol) (list Z))
    : Prop :=
  ∀ g, py_sum <$> st.2 !! g = st.1 !! g.

#[global] Instance pyerr_eq_dec : EqDecision pyerr.
Proof. solve_decision. Defined.

#[global] Instance result_eq_dec {A : Type} `{EqDecision A} : EqDecision (result A).
Proof. solve_decision. Defined.

(** A [k]-gram is observed in the text when it is the window of some
    position, in the table model when it is a key of [_k_gram_count], in
    the tree model when it has [k] symbols and its path is in the tree. *)
Definition observed (text : list symbol) (k : Z) (g : list symbol) : Prop :=
  ∃ i, (i < length text)%nat ∧ cyclic_window text k i = g.

#[global] Instance observed_dec text k g : Decision (observed text k g).
Proof.
  refine (cast_if (decide (Exists (λ i, cyclic_window text k i = g)
                             (seq 0 (length text)))));
    unfold observed; rewrite Exists_exists in *.
  - destruct e as (i & Hi%elem_of_seq & Hg). exists i. split; [lia | done].
  - intros (i & Hi & Hg). apply n. exists i. split; [apply elem_of_seq; lia | done].
Defined.

Definition observed_in_tables (tb : MarkovModelTables.t) (g : list symbol) : Prop :=
  is_Some (MarkovModelTables._k_gram_count tb !! g).

Definition observed_in_tree (tr : MarkovModelTree.t) (g : list symbol) : Prop :=
  Z.of_nat (length g) = MarkovModelTree._k tr
  ∧ is_Some (descend (MarkovModelTree._root tr) g).

(** [s] follows [g] somewhere in the text. *)
Definition follows (text : list symbol) (k : Z) (g : list symbol) (s : symbol)
    : Prop :=
  ∃ i, (i < length text)%nat
     ∧ cyclic_window text k i = g ∧ successor_at text k i = Ok s.

(** The sum of [f s] over the symbols [syms], raising when a term does. *)
Definition sum_over (syms : list symbol) (f : symbol → result Z) : result Z :=
  foldr (λ s acc, v ← f s; a ← acc; Ok (v + a)) (Ok 0) syms.

Fixpoint zsum (syms : list symbol) (h : symbol → Z) : Z :=
  match syms with
  | [] => 0
  | s :: rest => h s + zsum rest h
  end.

(** The model inside a result known to be [Ok]. *)
Definition built {A : Type} (d : A) (r : result A) : A :=
  match r with
  | Ok a => a
  | Err _ => d
  end.

Definition no_tree : MarkovModelTree.t :=
  {| MarkovModelTree._k := 0; MarkovModelTree._root := Node.__init__ None |}.

Definition no_tables : MarkovModelTables.t :=
  {| MarkovModelTables._k := 0;
     MarkovModelTables._k_gram_count := ∅;
     MarkovModelTables._k_gram_letter := ∅ |}.

(** The inputs the specification calls invalid. *)
Definition invalid_parameters (order trajectory : Z) (txt : list symbol) : Prop :=
  order < 1 ∨ trajectory < order ∨ txt = [].

(** ** The parts of the code that no claim reads *)

(** [chr] adds [ValueError] to the exceptions met so far. *)
Inductive pyerr_full : Type :=
  | StdErr (e : pyerr)
  | ValueError.

(** [chr(i)]: the character of code point [i], for [i] in
    [range(0x110000)]. *)
Definition py_chr (i : Z) : pyerr_full + symbol :=
  if (0 <=? i) && (i <? 1114112) then inr (Z.to_nat i) else inl ValueError.

(** [MarkovModelTables.next_char]: the sampler draws over the whole row of
    the [k]-gram, and the index drawn is turned into a character. *)
Definition MarkovModelTables_next_char (discrete : list Z → Z)
    (self : MarkovModelTables.t) (k_gram : list symbol) : pyerr_full + symbol :=
  match MarkovModelTables._k_gram_letter self !! k_gram with
  | None => inl (StdErr KeyError)
  | Some row => py_chr (discrete row)
  end.

(** The sum of all the counts of a table. *)
Definition count_total (counts : gmap (list symbol) Z) : Z :=
  map_fold (λ _ v acc, v + acc) 0 counts.

(** Every stretch of [kk + 1] symbols of [tj] is a window of the text. *)
Definition stretches_in_text (text : list symbol) (kk : nat) (tj : list symbol)
    : Prop :=
  ∀ j, (j + S kk ≤ length tj)%nat →
       observed text (Z.of_nat kk + 1) (take (S kk) (drop j tj)).

(** A node is tidy when its two dictionaries have the same keys in the
    same order, no key twice, every count is at least one, and every son
    carries the letter it is filed under and is tidy itself. *)
Inductive tidy : Node.t → Prop :=
  | tidy_node letter ns cs :
      dict_keys ns = dict_keys cs →
      NoDup (dict_keys ns) →
      Forall (λ kv, Node._letter kv.2 = Some kv.1 ∧ tidy kv.2) ns →
      Forall (λ v, 1 ≤ v) (dict_values cs) →
      tidy (Node.mk letter ns cs).




(** * Properties *)

(** ** The exception monad *)

Lemma bind_Ok {A B : Type} (r : result A) (f : A → result B) (b : B) :
  r ≫= f = Ok b → ∃ a, r = Ok a ∧ f a = Ok b.
Proof. destruct r as [a|e]; [eauto | discriminate]. Qed.

Lemma or_raise_Ok {A : Type} (e : pyerr) (o : option A) (a : A) :
  or_raise e o = Ok a ↔ o = Some a.
Proof. destruct o; simpl; split; congruence. Qed.

Ltac inv_bind H :=
  let a := fresh "a" in
  let Ha := fresh "H" a in
  apply bind_Ok in H as (a & Ha & H).

(** ** Ordered dictionaries *)

Section dict_facts.
Context {K V : Type} `{EqDecision K}.
Implicit Types (d : list (K * V)) (k : K) (v : V).

Lemma dict_get_set_eq d k v : dict_get k (dict_set k v d) = Some v.
Proof.
  induction d as [|[k' v'] d IH]; simpl.
  - by rewrite decide_True.
  - destruct (decide (k = k')); simpl.
    + by rewrite decide_True.
    + by rewrite decide_False.
Qed.

Lemma dict_get_set_ne d k k' v :
  k ≠ k' → dict_get k' (dict_set k v d) = dict_get k' d.
Proof.
  intros Hne. induction d as [|[k0 v0] d IH]; simpl.
  - by rewrite decide_False.
  - destruct (decide (k = k0)) as [->|]; simpl.
    + by rewrite !decide_False.
    + destruct (decide (k' = k0)); [done | apply IH].
Qed.

Lemma dict_get_set d k k' v :
  dict_get k' (dict_set k v d)
  = if decide (k' = k) then Some v else dict_get k' d.
Proof.
  destruct (decide (k' = k)) as [->|].
  - apply dict_get_set_eq.
  - by apply dict_get_set_ne.
Qed.

Lemma dict_get_None d k : dict_get k d = None ↔ k ∉ dict_keys d.
Proof.
  unfold dict_keys. induction d as [|[k' v'] d IH]; simpl.
  - split; [intros _; apply not_elem_of_nil | done].
  - rewrite not_elem_of_cons. destruct (decide (k = k')); [|tauto].
    split; [done | tauto].
Qed.

Lemma dict_get_Some_keys d k : is_Some (dict_get k d) ↔ k ∈ dict_keys d.
Proof.
  rewrite <- not_eq_None_Some, dict_get_None.
  destruct (decide (k ∈ dict_keys d)); tauto.
Qed.

Lemma dict_get_Some_values d k v : dict_get k d = Some v → v ∈ dict_values d.
Proof.
  unfold dict_values. induction d as [|[k' v'] d IH]; simpl; [done|].
  destruct (decide (k = k')).
  - intros [= ->]. apply elem_of_cons; by left.
  - intros. apply elem_of_cons; right; auto.
Qed.

Lemma dict_keys_set_old d k v :
  is_Some (dict_get k d) → dict_keys (dict_set k v d) = dict_keys d.
Proof.
  unfold dict_keys. induction d as [|[k' v'] d IH]; simpl.
  - by intros [? ?].
  - destruct (decide (k = k')) as [->|]; simpl; [done|].
    intros. f_equal. auto.
Qed.

Lemma dict_keys_set_new d k v :
  dict_get k d = None → dict_keys (dict_set k v d) = dict_keys d ++ [k].
Proof.
  unfold dict_keys. induction d as [|[k' v'] d IH]; simpl; [done|].
  destruct (decide (k = k')); [done|]. simpl. intros. f_equal. auto.
Qed.

Lemma dict_values_set_Forall (P : V → Prop) d k v :
  Forall P (dict_values d) → P v → Forall P (dict_values (dict_set k v d)).
Proof.
  unfold dict_values. intros Hd Hv.
  induction d as [|[k' v'] d IH]; simpl in *.
  - by constructor.
  - inversion Hd; subst.
    destruct (decide (k = k')); simpl; constructor; auto.
Qed.

Lemma dict_values_get_Forall (P : V → Prop) d k v :
  Forall P (dict_values d) → dict_get k d = Some v → P v.
Proof.
  intros Hd Hg. apply dict_get_Some_values in Hg.
  rewrite Forall_forall in Hd. auto.
Qed.
End dict_facts.

(** ** Well-formed nodes *)

Lemma wf_init letter : wf (Node.__init__ letter).
Proof. by constructor. Qed.

Lemma wf_keys nd :
  wf nd → dict_keys (Node._neighbours nd) = dict_keys (Node._letters_count nd).
Proof. by destruct 1. Qed.

Lemma wf_get_son nd ch son : wf nd → Node.get_son nd ch = Some son → wf son.
Proof.
  destruct 1 as [letter ns cs _ Hsons]. unfold Node.get_son; simpl.
  by apply dict_values_get_Forall.
Qed.

Lemma wf_count_None nd ch :
  wf nd → Node.get_son nd ch = None →
  dict_get ch (Node._letters_count nd) = None.
Proof.
  intros Hwf. unfold Node.get_son.
  rewrite !dict_get_None. by rewrite (wf_keys _ Hwf).
Qed.

Lemma wf_count_Some nd ch :
  wf nd → is_Some (Node.get_son nd ch) →
  is_Some (dict_get ch (Node._letters_count nd)).
Proof.
  intros Hwf. unfold Node.get_son.
  rewrite !dict_get_Some_keys. by rewrite (wf_keys _ Hwf).
Qed.

Lemma wf_son_or_new nd ch : wf nd → wf (son_or_new nd ch).
Proof.
  intros Hwf. unfold son_or_new.
  destruct (Node.get_son nd ch) eqn:E; simpl.
  - by eapply wf_get_son.
  - apply wf_init.
Qed.

(** [add_son] never raises on a well-formed node. *)
Lemma add_son_wf nd ch :
  wf nd →
  ∃ nd', Node.add_son nd ch = Ok (nd', son_or_new nd ch)
    ∧ wf nd'
    ∧ Node.get_son nd' ch = Some (son_or_new nd ch)
    ∧ (∀ x, x ≠ ch → Node.get_son nd' x = Node.get_son nd x)
    ∧ (∀ x, Node.get_letter_count nd' x
            = Node.get_letter_count nd x + (if decide (x = ch) then 1 else 0)).
Proof.
  intros Hwf. unfold Node.add_son, son_or_new.
  destruct (Node.get_son nd ch) as [son|] eqn:Hson.
  - unfold Node.get_son in Hson. rewrite Hson.
    destruct (wf_count_Some nd ch Hwf) as [c Hc].
    { unfold Node.get_son. by rewrite Hson. }
    rewrite Hc. simpl. rewrite Hson. simpl.
    eexists. split; [reflexivity|].
    destruct Hwf as [letter ns cs Hkeys Hsons]. simpl in *.
    split_and!.
    + constructor; [|done]. by rewrite dict_keys_set_old by (by rewrite Hc).
    + done.
    + done.
    + intros x. unfold Node.get_letter_count; simpl.
      rewrite dict_get_set. destruct (decide (x = ch)) as [->|].
      * rewrite Hc. lia.
      * destruct (dict_get x cs); lia.
  - pose proof (wf_count_None nd ch Hwf Hson) as Hc.
    unfold Node.get_son in Hson. rewrite Hson. simpl.
    rewrite (dict_get_set_eq (Node._letters_count nd)). simpl.
    rewrite (dict_get_set_eq (Node._neighbours nd)). simpl.
    eexists. split; [reflexivity|].
    destruct Hwf as [letter ns cs Hkeys Hsons]. simpl in *.
    split_and!.
    + constructor.
      * rewrite (dict_keys_set_old (dict_set ch 0 cs))
          by (rewrite dict_get_set_eq; eauto).
        rewrite !dict_keys_set_new by done. by rewrite Hkeys.
      * apply dict_values_set_Forall; [done | apply wf_init].
    + unfold Node.get_son; simpl. apply dict_get_set_eq.
    + intros x Hx. unfold Node.get_son; simpl. by rewrite dict_get_set_ne.
    + intros x. unfold Node.get_letter_count; simpl.
      rewrite !dict_get_set. destruct (decide (x = ch)) as [->|].
      * rewrite Hc. lia.
      * destruct (dict_get x cs); lia.
Qed.

Lemma store_son_wf nd ch son :
  wf nd → wf son → is_Some (Node.get_son nd ch) →
  wf (Node.store_son nd ch son)
  ∧ Node.get_son (Node.store_son nd ch son) ch = Some son
  ∧ (∀ x, x ≠ ch → Node.get_son (Node.store_son nd ch son) x = Node.get_son nd x)
  ∧ (∀ x, Node.get_letter_count (Node.store_son nd ch son) x
          = Node.get_letter_count nd x).
Proof.
  intros Hwf Hson Hin. destruct Hwf as [letter ns cs Hkeys Hsons].
  unfold Node.store_son, Node.get_son, Node.get_letter_count in *; simpl in *.
  split_and!.
  - constructor.
    + by rewrite dict_keys_set_old.
    + by apply dict_values_set_Forall.
  - apply dict_get_set_eq.
  - intros x Hx. by rewrite dict_get_set_ne.
  - done.
Qed.

(** ** Counting with the tree *)

Lemma ind_iff (P Q : Prop) `{Decision P, Decision Q} : (P ↔ Q) → ind P = ind Q.
Proof. unfold ind. intros. destruct (decide P), (decide Q); tauto. Qed.

Lemma ind_true (P : Prop) `{Decision P} : P → ind P = 1.
Proof. unfold ind. intros. by rewrite decide_True. Qed.

Lemma ind_false (P : Prop) `{Decision P} : ¬ P → ind P = 0.
Proof. unfold ind. intros. by rewrite decide_False. Qed.

Lemma ind_range (P : Prop) `{Decision P} : 0 ≤ ind P ≤ 1.
Proof. unfold ind. destruct (decide P); lia. Qed.

Section tally_facts.
Context (P : nat → Prop) `{∀ i, Decision (P i)}.

Lemma tally_nonneg positions : 0 ≤ tally P positions.
Proof.
  induction positions as [|i rest IH]; simpl; [lia|].
  pose proof (ind_range (P i)). lia.
Qed.

Lemma tally_pos positions : 0 < tally P positions ↔ ∃ i, i ∈ positions ∧ P i.
Proof.
  induction positions as [|i rest IH]; simpl.
  - split; [lia | intros (i & Hi & _); by apply elem_of_nil in Hi].
  - pose proof (tally_nonneg rest). unfold ind.
    destruct (decide (P i)) as [Hp|Hp].
    + split; [|lia]. intros _. exists i. split; [left | done].
    + rewrite Z.add_0_l, IH. split.
      * intros (j & Hj & Hq). exists j. split; [by right | done].
      * intros (j & Hj & Hq). apply elem_of_cons in Hj as [->|Hj]; [done|].
        by exists j.
Qed.

Lemma tally_zero positions : (∀ i, i ∈ positions → ¬ P i) → tally P positions = 0.
Proof.
  intros Hno. pose proof (tally_nonneg positions).
  destruct (decide (0 < tally P positions)) as [Hpos|]; [|lia].
  apply tally_pos in Hpos as (i & Hi & Hq). by destruct (Hno i Hi).
Qed.
End tally_facts.

Lemma tally_ext (P Q : nat → Prop) `{∀ i, Decision (P i), ∀ i, Decision (Q i)}
    positions :
  (∀ i, i ∈ positions → P i ↔ Q i) → tally P positions = tally Q positions.
Proof.
  induction positions as [|i rest IH]; simpl; intros Hext; [done|].
  rewrite IH by (intros; apply Hext; by right).
  f_equal. apply ind_iff, Hext. left.
Qed.

Lemma descend_init letter p : is_Some (descend (Node.__init__ letter) p) ↔ p = [].
Proof.
  destruct p; simpl; split; intros H; eauto; try done.
Qed.

Lemma count_at_init letter p c : count_at (Node.__init__ letter) p c = 0.
Proof. unfold count_at. by destruct p. Qed.

Lemma wf_descend nd p x : wf nd → descend nd p = Some x → wf x.
Proof.
  revert nd. induction p as [|ch p IH]; simpl; intros nd Hwf.
  - by intros [= <-].
  - destruct (Node.get_son nd ch) as [son|] eqn:Hson; simpl; [|done].
    apply IH. by eapply wf_get_son.
Qed.

Lemma descend_app nd p q :
  descend nd (p ++ q) = descend nd p ≫= λ x, descend x q.
Proof.
  revert nd. induction p as [|ch p IH]; simpl; intros nd; [done|].
  destruct (Node.get_son nd ch); simpl; [apply IH | done].
Qed.

(** Inserting one word: it never raises on a well-formed tree, every count
    on a prefix of the word goes up by one, and the nodes along the word
    come to exist. *)
Lemma add_path_spec w nd :
  wf nd →
  ∃ nd', MarkovModelTree.add_path w nd = Ok nd'
    ∧ wf nd'
    ∧ (∀ p c, count_at nd' p c = count_at nd p c + ind ((p ++ [c]) `prefix_of` w))
    ∧ (∀ p, is_Some (descend nd' p) ↔ is_Some (descend nd p) ∨ p `prefix_of` w).
Proof.
  revert nd. induction w as [|ch rest IH]; intros nd Hwf; simpl.
  - exists nd. split_and!; [done | done | |].
    + intros p c. rewrite ind_false; [lia|].
      intros Hp. apply prefix_nil_inv in Hp. by destruct p.
    + intros p. split; [tauto|]. intros [H|H]; [done|].
      apply prefix_nil_inv in H as ->. simpl. eauto.
  - destruct (add_son_wf nd ch Hwf) as (nd1 & -> & Hwf1 & Hson1 & Hoth1 & Hcnt1).
    simpl.
    destruct (IH _ (wf_son_or_new nd ch Hwf)) as (son' & -> & Hwf' & Hcnt' & Hex').
    simpl.
    destruct (store_son_wf nd1 ch son' Hwf1 Hwf') as (Hwf2 & Hson2 & Hoth2 & Hcnt2).
    { rewrite Hson1. eauto. }
    eexists. split; [reflexivity|]. split; [done|]. split.
    + intros [|x p] c.
      * unfold count_at; simpl. rewrite Hcnt2, Hcnt1. f_equal.
        destruct (decide (c = ch)) as [->|Hne].
        -- rewrite ind_true; [done|]. apply prefix_cons, prefix_nil.
        -- rewrite ind_false; [done|]. intros Hp.
           by apply prefix_cons_inv_1 in Hp.
      * unfold count_at; simpl. destruct (decide (x = ch)) as [->|Hne].
        -- rewrite Hson2; simpl. fold (count_at son' p c). rewrite Hcnt'.
           rewrite (ind_iff (((ch :: p) ++ [c]) `prefix_of` (ch :: rest))
                      ((p ++ [c]) `prefix_of` rest)).
           2:{ simpl. split; [apply prefix_cons_inv_2 | apply prefix_cons]. }
           f_equal. unfold son_or_new, count_at.
           destruct (Node.get_son nd ch); simpl; [done|].
           apply count_at_init.
        -- rewrite Hoth2, Hoth1 by done. rewrite ind_false; [lia|].
           simpl. intros Hp. by apply prefix_cons_inv_1 in Hp.
    + intros [|x p]; simpl.
      * split; [eauto|]. eauto.
      * destruct (decide (x = ch)) as [->|Hne].
        -- rewrite Hson2; simpl. rewrite Hex'.
           assert ((ch :: p) `prefix_of` (ch :: rest) ↔ p `prefix_of` rest) as ->.
           { split; [apply prefix_cons_inv_2 | apply prefix_cons]. }
           unfold son_or_new.
           destruct (Node.get_son nd ch); simpl; [done|].
           rewrite descend_init. split.
           ++ intros [->|H]; right; [apply prefix_nil | done].
           ++ intros [[? ?]|H]; [done | by right].
        -- rewrite Hoth2, Hoth1 by done. split; [tauto|].
           intros [H|H]; [done|]. by apply prefix_cons_inv_1 in H.
Qed.

(** The constructor's loop over any list of positions. *)
Lemma tree_loop_spec (win : nat → list symbol) (positions : list nat) nd :
  wf nd →
  ∃ nd', for_each (λ i root, MarkovModelTree.add_path (win i) root) positions nd
         = Ok nd'
    ∧ wf nd'
    ∧ (∀ p c, count_at nd' p c
              = count_at nd p c + tally (λ i, (p ++ [c]) `prefix_of` win i) positions)
    ∧ (∀ p, is_Some (descend nd' p)
            ↔ is_Some (descend nd p) ∨ ∃ i, i ∈ positions ∧ p `prefix_of` win i).
Proof.
  revert nd. induction positions as [|i positions IH]; intros nd Hwf;
    cbn [for_each].
  - exists nd. split_and!; [done | done | intros; simpl; lia |].
    intros p. split; [tauto|]. intros [H|(i & Hi & _)]; [done|].
    by apply elem_of_nil in Hi.
  - destruct (add_path_spec (win i) nd Hwf) as (nd1 & -> & Hwf1 & Hcnt1 & Hex1).
    cbn [mbind result_bind]. destruct (IH nd1 Hwf1) as (nd' & -> & Hwf' & Hcnt' & Hex').
    exists nd'. split_and!; [done | done | |].
    + intros p c. rewrite Hcnt', Hcnt1. simpl. lia.
    + intros p. rewrite Hex', Hex1. split.
      * intros [[H|H]|(j & Hj & H)]; [by left | |].
        -- right. exists i. split; [left | done].
        -- right. exists j. split; [by right | done].
      * intros [H|(j & Hj & H)]; [by left; left|].
        apply elem_of_cons in Hj as [->|Hj]; [by left; right|].
        right. eauto.
Qed.

(** ** Slices and cyclic windows *)

Lemma py_index_nat {A : Type} (s : list A) (i : nat) :
  py_index s (Z.of_nat i) = or_raise IndexError (s !! i).
Proof.
  unfold py_index. rewrite (proj2 (Z.ltb_ge _ _)) by lia.
  rewrite (proj2 (Z.leb_le _ _)) by lia. simpl.
  rewrite Nat2Z.id. destruct (Z.ltb_spec (Z.of_nat i) (Z.of_nat (length s))); [done|].
  rewrite lookup_ge_None_2 by lia. done.
Qed.

Lemma py_index_Ok {A : Type} (s : list A) (i : nat) (a : A) :
  py_index s (Z.of_nat i) = Ok a ↔ s !! i = Some a.
Proof. by rewrite py_index_nat, or_raise_Ok. Qed.

Lemma py_slice_to {A : Type} (s : list A) (hi : nat) :
  py_slice s None (Some (Z.of_nat hi)) = take hi s.
Proof.
  unfold py_slice, py_clamp; simpl.
  rewrite (proj2 (Z.ltb_ge _ _)) by lia. rewrite Nat2Z.id, Nat.sub_0_r.
  destruct (decide (hi ≤ length s)%nat).
  - by rewrite Nat.min_r.
  - rewrite Nat.min_l by lia. rewrite firstn_all. by rewrite take_ge by lia.
Qed.

Lemma py_slice_between {A : Type} (s : list A) (lo hi : nat) :
  (lo ≤ length s)%nat → (hi ≤ length s)%nat →
  py_slice s (Some (Z.of_nat lo)) (Some (Z.of_nat hi)) = take (hi - lo) (drop lo s).
Proof.
  intros Hlo Hhi. unfold py_slice, py_clamp; simpl.
  rewrite !(proj2 (Z.ltb_ge _ _)) by lia. rewrite !Nat2Z.id.
  by rewrite !Nat.min_r by lia.
Qed.

Lemma py_slice_from_1 {A : Type} (s : list A) : py_slice s (Some 1) None = drop 1 s.
Proof.
  unfold py_slice, py_clamp; simpl. destruct s as [|a s]; [done|].
  simpl. rewrite Nat.min_0_r, Nat.sub_0_r. simpl. by rewrite take_ge.
Qed.

Lemma mod_wrap (x n : Z) : n ≤ x < 2 * n → x `mod` n = x - n.
Proof.
  intros Hx. replace x with ((x - n) + 1 * n) at 1 by lia.
  rewrite Z.mod_add by lia. apply Z.mod_small. lia.
Qed.

Section windows.
Context (text : list symbol).
Implicit Types (i w : nat).

Lemma length_cyc i w :
  (i < length text)%nat → (w ≤ length text)%nat → length (cyc text i w) = w.
Proof.
  intros Hi Hw. unfold cyc.
  rewrite length_take, length_drop, length_app. lia.
Qed.

(** The constructors' window is the cyclic one as long as it is no longer
    than the text. *)
Lemma cyclic_window_cyc i w :
  (i < length text)%nat → (w ≤ length text)%nat →
  cyclic_window text (Z.of_nat w) i = cyc text i w.
Proof.
  intros Hi Hw. unfold cyclic_window, cyc.
  rewrite drop_app_le by lia.
  destruct (Z.ltb_spec (Z.of_nat i + Z.of_nat w) (Z.of_nat (length text)))
    as [Hlt|Hge].
  - rewrite <- Nat2Z.inj_add, py_slice_between by lia.
    rewrite take_app_le by (rewrite length_drop; lia).
    f_equal. lia.
  - rewrite py_slice_between by lia.
    rewrite mod_wrap by lia.
    replace (Z.of_nat i + Z.of_nat w - Z.of_nat (length text))
      with (Z.of_nat (i + w - length text)) by lia.
    rewrite py_slice_to.
    rewrite take_ge by (rewrite length_drop; lia).
    rewrite take_app_ge by (rewrite length_drop; lia).
    rewrite length_drop. do 2 f_equal. lia.
Qed.

Lemma successor_at_cyc i w :
  (i < length text)%nat → (w ≤ length text)%nat →
  successor_at text (Z.of_nat w) i
  = or_raise IndexError ((text ++ text) !! (i + w)%nat).
Proof.
  intros Hi Hw. unfold successor_at.
  destruct (decide (i + w < length text)%nat) as [Hlt|Hge].
  - rewrite Z.mod_small by lia. rewrite <- Nat2Z.inj_add, py_index_nat.
    by rewrite lookup_app_l by lia.
  - rewrite mod_wrap by lia.
    replace (Z.of_nat i + Z.of_nat w - Z.of_nat (length text))
      with (Z.of_nat (i + w - length text)) by lia.
    rewrite py_index_nat. by rewrite lookup_app_r by lia.
Qed.

Lemma successor_at_Ok (k : Z) i :
  (i < length text)%nat → ∃ ch, successor_at text k i = Ok ch ∧ ch ∈ text.
Proof.
  intros Hi. unfold successor_at.
  pose proof (Z.mod_pos_bound (Z.of_nat i + k) (Z.of_nat (length text))) as Hm.
  set (j := (Z.of_nat i + k) `mod` Z.of_nat (length text)) in *.
  replace j with (Z.of_nat (Z.to_nat j)) by lia.
  rewrite py_index_nat.
  destruct (lookup_lt_is_Some_2 text (Z.to_nat j)) as [ch Hch]; [lia|].
  rewrite Hch. exists ch. split; [done|]. by eapply list_elem_of_lookup_2.
Qed.

(** A window of width [w + 1] is the [w]-gram and its successor. *)
Lemma cyc_snoc i w :
  (i < length text)%nat → (w < length text)%nat →
  ∃ ch, successor_at text (Z.of_nat w) i = Ok ch
    ∧ cyc text i (S w) = cyc text i w ++ [ch].
Proof.
  intros Hi Hw. rewrite successor_at_cyc by lia.
  destruct (lookup_lt_is_Some_2 (text ++ text) (i + w)) as [ch Hch].
  { rewrite length_app. lia. }
  rewrite Hch. exists ch. split; [done|]. unfold cyc.
  apply take_S_r. by rewrite lookup_drop.
Qed.

(** Sliding a window by one position, around the end of the text. *)
Lemma cyc_slide i w :
  (i < length text)%nat → (w < length text)%nat →
  drop 1 (cyc text i (S w)) = cyc text (S i `mod` length text) w.
Proof.
  intros Hi Hw. unfold cyc. rewrite skipn_firstn_comm.
  rewrite drop_drop. simpl. rewrite Nat.sub_0_r.
  destruct (decide (S i < length text)%nat) as [Hlt|Hge].
  - rewrite Nat.mod_small by lia. by rewrite Nat.add_1_r.
  - assert (S i = length text) as Heq by lia.
    rewrite Heq, Nat.Div0.mod_same. rewrite Nat.add_1_r, Heq.
    rewrite drop_app_length, drop_0.
    by rewrite take_app_le by lia.
Qed.
End windows.

(** ** The table constructor *)

Lemma py_index_Err {A : Type} (s : list A) (i : Z) (e : pyerr) :
  py_index s i = Err e → e = IndexError.
Proof.
  unfold py_index. destruct (_ && _); [|congruence].
  destruct (s !! _); simpl; congruence.
Qed.

Lemma py_sum_replicate n : py_sum (replicate n 0) = 0.
Proof. induction n as [|n IH]; simpl; [done | by rewrite IH]. Qed.

Lemma length_zero_row : length zero_row = 128%nat.
Proof. apply length_replicate. Qed.

Lemma py_sum_zero_row : py_sum zero_row = 0.
Proof. apply py_sum_replicate. Qed.

Lemma lookup_zero_row (s : nat) : default 0 (zero_row !! s) = 0.
Proof.
  destruct (zero_row !! s) eqn:E; [|done].
  by apply lookup_replicate in E as [-> _].
Qed.

#[local] Opaque zero_row.

Lemma py_sum_insert (row : list Z) (j : nat) (v w : Z) :
  row !! j = Some v → py_sum (<[j := w]> row) = py_sum row - v + w.
Proof.
  revert j. induction row as [|x row IH]; intros [|j]; simpl; try done.
  - intros [= ->]. lia.
  - intros Hj. rewrite (IH j Hj). lia.
Qed.

(** One round, with the two "create if absent" tests folded into
    defaults. *)
Lemma init_step_eq text k i st :
  MarkovModelTables.init_step text k i st
  = (ch ← successor_at text k i;
     let k_gram := cyclic_window text k i in
     let row := default (zero_row) (st.2 !! k_gram) in
     v ← py_index row (ord ch);
     Ok (<[k_gram := default 0 (st.1 !! k_gram) + 1]> st.1,
         <[k_gram := <[Z.to_nat (ord ch) := v + 1]> row]> st.2)).
Proof.
  unfold MarkovModelTables.init_step, successor_at.
  destruct st as [counts letters]; simpl.
  set (k_gram := cyclic_window text k i).
  destruct (counts !! k_gram) as [c|] eqn:Hc;
    destruct (letters !! k_gram) as [row|] eqn:Hrow; simpl;
    rewrite ?Hc, ?Hrow, ?lookup_insert_eq; simpl;
    destruct (py_index text _) as [ch|]; simpl; try done;
    destruct (py_index _ (ord ch)) as [v|]; simpl; try done;
    by rewrite ?insert_insert_eq.
Qed.

Lemma init_step_Err text k i st e :
  MarkovModelTables.init_step text k i st = Err e → e = IndexError.
Proof.
  rewrite init_step_eq. unfold successor_at.
  destruct (py_index text _) as [ch|e1] eqn:H1; simpl.
  - destruct (py_index _ (ord ch)) as [v|e2] eqn:H2; simpl; [done|].
    intros [= <-]. by eapply py_index_Err.
  - intros [= <-]. by eapply py_index_Err.
Qed.

Lemma tables_loop_Err text k positions st e :
  for_each (MarkovModelTables.init_step text k) positions st = Err e →
  e = IndexError.
Proof.
  revert st. induction positions as [|i rest IH]; intros st; simpl; [done|].
  destruct (MarkovModelTables.init_step text k i st) as [st1|e1] eqn:H1; simpl.
  - apply IH.
  - intros [= <-]. by eapply init_step_Err.
Qed.

(** What one successful round does. *)
Lemma init_step_Ok text k i st st' :
  rows_128 st.2 → rows_sum_to_count st →
  MarkovModelTables.init_step text k i st = Ok st' →
  ∃ ch, successor_at text k i = Ok ch ∧ (ch < 128)%nat
    ∧ rows_128 st'.2 ∧ rows_sum_to_count st'
    ∧ (∀ g, default 0 (st'.1 !! g)
            = default 0 (st.1 !! g) + ind (cyclic_window text k i = g))
    ∧ (∀ g, is_Some (st'.1 !! g)
            ↔ is_Some (st.1 !! g) ∨ cyclic_window text k i = g)
    ∧ (∀ g s, cell st'.2 g s
              = cell st.2 g s
                + ind (cyclic_window text k i = g ∧ successor_at text k i = Ok s)).
Proof.
  intros Hrows Hsum. rewrite init_step_eq.
  destruct (successor_at text k i) as [ch|] eqn:Hch; simpl; [|done].
  set (k_gram := cyclic_window text k i).
  set (row := default (zero_row) (st.2 !! k_gram)).
  assert (length row = 128%nat) as Hlen.
  { unfold row. destruct (st.2 !! k_gram) as [r|] eqn:Hr; simpl.
    - by eapply Hrows.
    - apply length_zero_row. }
  assert (py_sum row = default 0 (st.1 !! k_gram)) as Hrowsum.
  { unfold row. specialize (Hsum k_gram).
    destruct (st.2 !! k_gram) as [r|] eqn:Hr; simpl in *.
    - by rewrite <- Hsum.
    - rewrite <- Hsum. apply py_sum_zero_row. }
  unfold ord. rewrite py_index_nat, Nat2Z.id.
  destruct (row !! ch) as [v|] eqn:Hv; simpl; [|done].
  intros [= <-]. simpl.
  assert (ch < 128)%nat as Hlt.
  { rewrite <- Hlen. by eapply lookup_lt_Some. }
  exists ch. split_and!; [done | done | | | | |].
  - intros g r. rewrite lookup_insert. destruct (decide (k_gram = g)).
    + intros [= <-]. by rewrite length_insert.
    + apply Hrows.
  - intros g. simpl. rewrite !lookup_insert. destruct (decide (k_gram = g)).
    + simpl. f_equal. rewrite (py_sum_insert _ _ v) by done. lia.
    + apply Hsum.
  - intros g. rewrite lookup_insert. unfold ind.
    destruct (decide (k_gram = g)) as [<-|]; simpl; lia.
  - intros g. rewrite lookup_insert_is_Some.
    destruct (decide (k_gram = g)); tauto.
  - intros g s. unfold cell. rewrite lookup_insert.
    destruct (decide (k_gram = g)) as [<-|Hne]; simpl.
    + rewrite list_lookup_insert.
      assert (default 0 (st.2 !! k_gram ≫= λ r, r !! s) = default 0 (row !! s))
        as ->.
      { unfold row. destruct (st.2 !! k_gram) as [r|]; simpl; [done|].
        by rewrite lookup_zero_row. }
      destruct (decide (ch = s ∧ (ch < length row)%nat)) as [[<- _]|Hno]; simpl.
      * rewrite Hv, ind_true by done. simpl. lia.
      * rewrite ind_false; [lia|]. intros [_ [= ->]]. apply Hno. split; [done|lia].
    + rewrite ind_false; [lia|]. by intros [? _].
Qed.

(** The whole loop, when it has succeeded. *)
Lemma tables_loop_Ok text k positions st st' :
  rows_128 st.2 → rows_sum_to_count st →
  for_each (MarkovModelTables.init_step text k) positions st = Ok st' →
  (∀ i, i ∈ positions → ∃ ch, successor_at text k i = Ok ch ∧ (ch < 128)%nat)
  ∧ rows_128 st'.2 ∧ rows_sum_to_count st'
  ∧ (∀ g, default 0 (st'.1 !! g)
          = default 0 (st.1 !! g) + tally (λ i, cyclic_window text k i = g) positions)
  ∧ (∀ g, is_Some (st'.1 !! g)
          ↔ is_Some (st.1 !! g) ∨ ∃ i, i ∈ positions ∧ cyclic_window text k i = g)
  ∧ (∀ g s, cell st'.2 g s
            = cell st.2 g s
              + tally (λ i, cyclic_window text k i = g ∧ successor_at text k i = Ok s)
                  positions).
Proof.
  revert st. induction positions as [|i rest IH]; intros st Hrows Hsum; simpl.
  - intros [= <-]. split_and!; try done.
    + intros i Hi. by apply elem_of_nil in Hi.
    + intros; lia.
    + intros g. split; [tauto|]. intros [H|(i & Hi & _)]; [done|].
      by apply elem_of_nil in Hi.
    + intros; lia.
  - intros Hloop. inv_bind Hloop.
    destruct (init_step_Ok _ _ _ _ _ Hrows Hsum Ha)
      as (ch & Hch & Hlt & Hrows1 & Hsum1 & Hcnt1 & Hdom1 & Hcell1).
    destruct (IH a Hrows1 Hsum1 Hloop)
      as (Hsucc & Hrows' & Hsum' & Hcnt' & Hdom' & Hcell').
    split_and!; try done.
    + intros j Hj. apply elem_of_cons in Hj as [->|Hj]; eauto.
    + intros g. rewrite Hcnt', Hcnt1. lia.
    + intros g. rewrite Hdom', Hdom1. split.
      * intros [[H|H]|(j & Hj & H)]; [by left | |].
        -- right. exists i. split; [left | done].
        -- right. exists j. split; [by right | done].
      * intros [H|(j & Hj & H)]; [by left; left|].
        apply elem_of_cons in Hj as [->|Hj]; [by left; right|].
        right. eauto.
    + intros g s. rewrite Hcell', Hcell1. lia.
Qed.

(** The loop does succeed when every successor fits the table. *)
Lemma tables_loop_total text k positions st :
  rows_128 st.2 → rows_sum_to_count st →
  (∀ i, i ∈ positions → ∃ ch, successor_at text k i = Ok ch ∧ (ch < 128)%nat) →
  is_Ok (for_each (MarkovModelTables.init_step text k) positions st).
Proof.
  revert st. induction positions as [|i rest IH]; intros st Hrows Hsum Hsucc; simpl.
  - by eexists.
  - destruct (Hsucc i) as (ch & Hch & Hlt); [left|].
    destruct (MarkovModelTables.init_step text k i st) as [st1|e] eqn:Hstep; simpl.
    + destruct (init_step_Ok _ _ _ _ _ Hrows Hsum Hstep)
        as (_ & _ & _ & Hrows1 & Hsum1 & _).
      apply IH; [done | done |]. intros j Hj. apply Hsucc. by right.
    + exfalso. rewrite init_step_eq, Hch in Hstep. simpl in Hstep.
      unfold ord in Hstep. rewrite py_index_nat, Nat2Z.id in Hstep.
      destruct (lookup_lt_is_Some_2
                  (default zero_row (st.2 !! cyclic_window text k i)) ch)
        as [v Hv].
      { destruct (st.2 !! cyclic_window text k i) as [r|] eqn:Hr; simpl.
        - by rewrite (Hrows _ _ Hr).
        - by rewrite length_zero_row. }
      by rewrite Hv in Hstep.
Qed.

(** ** Queries on the tree *)

Lemma walk_None path :
  MarkovModelTree.walk None path = Ok None ∨
  MarkovModelTree.walk None path = Err AttributeError.
Proof. destruct path; simpl; auto. Qed.

(** Walking and then using the node: the node at the end of the path when
    there is one, [AttributeError] on [None] otherwise. *)
Lemma walk_descend {A : Type} (f : Node.t → result A) nd path :
  (node ← MarkovModelTree.walk (Some nd) path;
   match node with
   | None => Err AttributeError
   | Some x => f x
   end)
  = match descend nd path with
    | Some x => f x
    | None => Err AttributeError
    end.
Proof.
  revert nd. induction path as [|ch rest IH]; intros nd; simpl; [done|].
  destruct (Node.get_son nd ch) as [son|]; simpl; [apply IH|].
  by destruct (walk_None rest) as [-> | ->].
Qed.

Lemma k_follow_freq_descend tr g s :
  MarkovModelTree.k_follow_freq tr g s
  = match descend (MarkovModelTree._root tr) g with
    | Some x => Ok (Node.get_letter_count x s)
    | None => Err AttributeError
    end.
Proof. unfold MarkovModelTree.k_follow_freq. apply walk_descend. Qed.

Lemma py_index_last {A : Type} (p : list A) (c : A) : py_index (p ++ [c]) (-1) = Ok c.
Proof.
  unfold py_index. simpl. rewrite length_app; simpl.
  rewrite (proj2 (Z.leb_le _ _)), (proj2 (Z.ltb_lt _ _)) by lia. simpl.
  replace (Z.to_nat (-1 + Z.of_nat (length p + 1))) with (length p) by lia.
  by rewrite list_lookup_middle.
Qed.

Lemma k_freq_descend tr p c :
  MarkovModelTree.k_freq tr (p ++ [c])
  = match descend (MarkovModelTree._root tr) p with
    | Some x => Ok (Node.get_letter_count x c)
    | None => Err AttributeError
    end.
Proof.
  unfold MarkovModelTree.k_freq.
  rewrite length_app; simpl. rewrite Nat.add_sub, take_app_length.
  rewrite (walk_descend (λ nd, last_ch ← py_index (p ++ [c]) (-1);
                               Ok (Node.get_letter_count nd last_ch))).
  by rewrite py_index_last.
Qed.

Lemma next_char_descend discrete tr g :
  MarkovModelTree.next_char discrete tr g
  = match descend (MarkovModelTree._root tr) g with
    | Some x =>
        py_index (dict_keys (Node.get_letters_count x))
          (discrete (dict_values (Node.get_letters_count x)))
    | None => Err AttributeError
    end.
Proof. unfold MarkovModelTree.next_char. apply walk_descend. Qed.

(** ** What the tree constructor builds *)

Lemma tree_init_spec text k :
  ∃ tr, MarkovModelTree.__init__ text k = Ok tr
    ∧ MarkovModelTree._k tr = k
    ∧ wf (MarkovModelTree._root tr)
    ∧ (∀ p c, count_at (MarkovModelTree._root tr) p c
              = tally (λ i, (p ++ [c]) `prefix_of` cyclic_window text (k + 1) i)
                  (seq 0 (length text)))
    ∧ (∀ p, is_Some (descend (MarkovModelTree._root tr) p)
            ↔ p = [] ∨ ∃ i, (i < length text)%nat
                          ∧ p `prefix_of` cyclic_window text (k + 1) i).
Proof.
  unfold MarkovModelTree.__init__.
  destruct (tree_loop_spec (cyclic_window text (k + 1)) (seq 0 (length text))
              (Node.__init__ None) (wf_init None))
    as (root & -> & Hwf & Hcnt & Hex).
  simpl. eexists. split; [reflexivity|]. simpl. split_and!; [done | done | |].
  - intros p c. rewrite Hcnt, count_at_init. lia.
  - intros p. rewrite Hex, descend_init. split.
    + intros [->|(i & Hi & Hp)]; [by left|]. right. exists i.
      apply elem_of_seq in Hi. split; [lia | done].
    + intros [->|(i & Hi & Hp)]; [by left|]. right. exists i.
      split; [apply elem_of_seq; lia | done].
Qed.

(** ** What the table constructor builds *)

(** Every symbol of the text is the successor of some position. *)
Lemma successor_onto text (k : Z) (j : nat) ch :
  text !! j = Some ch →
  ∃ i, (i < length text)%nat ∧ successor_at text k i = Ok ch.
Proof.
  intros Hj. pose proof (lookup_lt_Some _ _ _ Hj) as Hlt.
  pose proof (Z.mod_pos_bound (Z.of_nat j - k) (Z.of_nat (length text))) as Hm.
  exists (Z.to_nat ((Z.of_nat j - k) `mod` Z.of_nat (length text))).
  split; [lia|]. unfold successor_at.
  rewrite Z2Nat.id by lia. rewrite Zplus_mod_idemp_l.
  replace (Z.of_nat j - k + k) with (Z.of_nat j) by lia.
  rewrite Z.mod_small by lia. by apply py_index_Ok.
Qed.

Lemma tables_init_Ok text k tb :
  MarkovModelTables.__init__ text k = Ok tb →
  Forall (λ ch, (ch < 128)%nat) text
  ∧ MarkovModelTables._k tb = k
  ∧ rows_128 (MarkovModelTables._k_gram_letter tb)
  ∧ rows_sum_to_count
      (MarkovModelTables._k_gram_count tb, MarkovModelTables._k_gram_letter tb)
  ∧ (∀ g, default 0 (MarkovModelTables._k_gram_count tb !! g)
          = tally (λ i, cyclic_window text k i = g) (seq 0 (length text)))
  ∧ (∀ g, is_Some (MarkovModelTables._k_gram_count tb !! g)
          ↔ ∃ i, (i < length text)%nat ∧ cyclic_window text k i = g)
  ∧ (∀ g s, cell (MarkovModelTables._k_gram_letter tb) g s
            = tally (λ i, cyclic_window text k i = g ∧ successor_at text k i = Ok s)
                (seq 0 (length text))).
Proof.
  unfold MarkovModelTables.__init__. intros Hinit. inv_bind Hinit.
  injection Hinit as <-.
  cbn [MarkovModelTables._k MarkovModelTables._k_gram_count
       MarkovModelTables._k_gram_letter].
  destruct (tables_loop_Ok text k (seq 0 (length text)) (∅, ∅) a)
    as (Hsucc & Hrows & Hsum & Hcnt & Hdom & Hcell); [| |done|].
  { intros g row. cbn [fst snd]. by rewrite lookup_empty. }
  { intros g. cbn [fst snd]. by rewrite !lookup_empty. }
  split_and!; [| done | done | done | | |].
  - apply Forall_forall. intros ch Hch.
    apply list_elem_of_lookup_1 in Hch as [j Hj].
    destruct (successor_onto text k j ch Hj) as (i & Hi & Hs).
    destruct (Hsucc i) as (ch' & Hs' & Hlt); [apply elem_of_seq; lia|].
    congruence.
  - intros g. rewrite Hcnt. cbn [fst snd]. rewrite lookup_empty. simpl. lia.
  - intros g. rewrite Hdom. cbn [fst snd]. rewrite lookup_empty. split.
    + intros [[? ?]|(i & Hi & Hg)]; [done|]. exists i.
      apply elem_of_seq in Hi. split; [lia | done].
    + intros (i & Hi & Hg). right. exists i. split; [apply elem_of_seq; lia | done].
  - intros g s. rewrite Hcell. cbn [fst snd]. unfold cell at 1.
    rewrite lookup_empty. simpl. lia.
Qed.

Lemma tables_init_total text k :
  Forall (λ ch, (ch < 128)%nat) text → is_Ok (MarkovModelTables.__init__ text k).
Proof.
  intros Hall. unfold MarkovModelTables.__init__.
  destruct (tables_loop_total text k (seq 0 (length text)) (∅, ∅)) as [st Hst].
  - intros g row. cbn [fst snd]. by rewrite lookup_empty.
  - intros g. cbn [fst snd]. by rewrite !lookup_empty.
  - intros i Hi. apply elem_of_seq in Hi.
    destruct (successor_at_Ok text k i) as (ch & Hch & Hin); [lia|].
    exists ch. split; [done|]. rewrite Forall_forall in Hall. auto.
  - rewrite Hst. simpl. by eexists.
Qed.

Lemma tables_init_Err text k e :
  MarkovModelTables.__init__ text k = Err e → e = IndexError.
Proof.
  unfold MarkovModelTables.__init__.
  destruct (for_each _ _ _) as [st|e'] eqn:Hloop; simpl; [done|].
  intros [= <-]. by eapply tables_loop_Err.
Qed.

(** Reading the table of a built model. *)
Lemma tables_k_follow_freq tb g s :
  rows_128 (MarkovModelTables._k_gram_letter tb) →
  rows_sum_to_count
    (MarkovModelTables._k_gram_count tb, MarkovModelTables._k_gram_letter tb) →
  MarkovModelTables.k_follow_freq tb g s
  = if MarkovModelTables._k_gram_count tb !! g is Some _
    then if decide (s < 128)%nat
         then Ok (cell (MarkovModelTables._k_gram_letter tb) g s)
         else Err IndexError
    else Err KeyError.
Proof.
  intros Hrows Hsum. unfold MarkovModelTables.k_follow_freq, cell.
  specialize (Hsum g). simpl in Hsum. rewrite <- Hsum.
  destruct (MarkovModelTables._k_gram_letter tb !! g) as [row|] eqn:Hrow;
    simpl; [|done].
  unfold ord. rewrite py_index_nat. pose proof (Hrows _ _ Hrow) as Hlen.
  destruct (decide (s < 128)%nat) as [Hlt|Hge].
  - destruct (lookup_lt_is_Some_2 row s) as [v Hv]; [lia|]. by rewrite Hv.
  - by rewrite lookup_ge_None_2 by lia.
Qed.

(** ** Orders below the length of the text: both models count the same
    windows *)

Lemma prefix_snoc_same_length {A : Type} (g w : list A) (c : A) :
  length g = length w → g `prefix_of` (w ++ [c]) ↔ g = w.
Proof.
  intros Hlen. split.
  - intros [rest Hrest]. by apply app_inj_1 in Hrest as [-> _].
  - intros ->. by apply prefix_app_r.
Qed.

Lemma prefix_snoc_snoc {A : Type} (g w : list A) (s c : A) :
  length g = length w → (g ++ [s]) `prefix_of` (w ++ [c]) ↔ g = w ∧ s = c.
Proof.
  intros Hlen. split.
  - intros [rest Hrest]. rewrite <- app_assoc in Hrest.
    apply app_inj_1 in Hrest as [-> Hrest]; [|done].
    by injection Hrest as ->.
  - by intros [-> ->].
Qed.

Section below_length.
Context (text : list symbol) (kk : nat) (Hkk : (kk < length text)%nat).
Context (tr : MarkovModelTree.t)
        (Htr : MarkovModelTree.__init__ text (Z.of_nat kk) = Ok tr).

Local Abbreviation root := (MarkovModelTree._root tr).
Local Abbreviation positions := (seq 0 (length text)).

Lemma window_split i :
  (i < length text)%nat →
  ∃ ch, successor_at text (Z.of_nat kk) i = Ok ch
    ∧ cyclic_window text (Z.of_nat kk + 1) i
      = cyclic_window text (Z.of_nat kk) i ++ [ch]
    ∧ length (cyclic_window text (Z.of_nat kk) i) = kk.
Proof.
  intros Hi. destruct (cyc_snoc text i kk Hi Hkk) as (ch & Hch & Hsnoc).
  exists ch. replace (Z.of_nat kk + 1) with (Z.of_nat (S kk)) by lia.
  rewrite !cyclic_window_cyc by lia. split_and!; [done | done |].
  apply length_cyc; lia.
Qed.

Lemma tree_facts :
  wf root
  ∧ (∀ p c, count_at root p c
            = tally (λ i, (p ++ [c]) `prefix_of` cyclic_window text (Z.of_nat kk + 1) i)
                positions)
  ∧ (∀ p, is_Some (descend root p)
          ↔ p = [] ∨ ∃ i, (i < length text)%nat
                        ∧ p `prefix_of` cyclic_window text (Z.of_nat kk + 1) i).
Proof.
  destruct (tree_init_spec text (Z.of_nat kk)) as (tr' & Htr' & _ & Hrest).
  rewrite Htr in Htr'. by injection Htr' as <-.
Qed.

Lemma tree_follow_count g s :
  length g = kk →
  count_at root g s
  = tally (λ i, cyclic_window text (Z.of_nat kk) i = g
                ∧ successor_at text (Z.of_nat kk) i = Ok s) positions.
Proof.
  intros Hg. destruct tree_facts as (_ & -> & _).
  apply tally_ext. intros i Hi. apply elem_of_seq in Hi.
  destruct (window_split i) as (ch & -> & -> & Hlen); [lia|].
  rewrite prefix_snoc_snoc by congruence. split.
  - by intros [-> ->].
  - by intros [-> [= ->]].
Qed.

Lemma tree_freq_count p c :
  length (p ++ [c]) = kk →
  count_at root p c
  = tally (λ i, cyclic_window text (Z.of_nat kk) i = p ++ [c]) positions.
Proof.
  intros Hg. destruct tree_facts as (_ & -> & _).
  apply tally_ext. intros i Hi. apply elem_of_seq in Hi.
  destruct (window_split i) as (ch & _ & -> & Hlen); [lia|].
  rewrite prefix_snoc_same_length by congruence. split; congruence.
Qed.

Lemma tree_path_observed g :
  length g = kk →
  is_Some (descend root g) ↔ observed text (Z.of_nat kk) g.
Proof.
  intros Hg. destruct tree_facts as (_ & _ & ->). unfold observed. split.
  - intros [->|(i & Hi & Hp)].
    + exists 0%nat. split; [lia|]. simpl in Hg. subst kk.
      by rewrite (cyclic_window_cyc text 0 0) by lia.
    + exists i. split; [done|].
      destruct (window_split i) as (ch & _ & Heq & Hlen); [lia|].
      rewrite Heq in Hp. symmetry.
      by apply (prefix_snoc_same_length g _ ch); [congruence|].
  - intros (i & Hi & <-). right. exists i. split; [done|].
    destruct (window_split i) as (ch & _ & -> & _); [lia|].
    by apply prefix_app_r.
Qed.

(** [k_follow_freq] on the tree, for a [k]-gram of the text. *)
Lemma tree_k_follow_freq g s :
  observed text (Z.of_nat kk) g →
  MarkovModelTree.k_follow_freq tr g s
  = Ok (tally (λ i, cyclic_window text (Z.of_nat kk) i = g
                    ∧ successor_at text (Z.of_nat kk) i = Ok s) positions).
Proof.
  intros Hobs. assert (length g = kk) as Hg.
  { destruct Hobs as (i & Hi & <-).
    by destruct (window_split i) as (ch & _ & _ & Hlen). }
  rewrite k_follow_freq_descend.
  pose proof (tree_follow_count g s Hg) as Hcnt. unfold count_at in Hcnt.
  apply (tree_path_observed g Hg) in Hobs as [x Hx].
  rewrite Hx in *. simpl in Hcnt. by rewrite Hcnt.
Qed.

(** [k_freq] on the tree, for a [k]-gram with at least one symbol: the
    number of its occurrences when its first [k - 1] symbols are on a
    path, and [AttributeError] when they are not. *)
Lemma tree_k_freq p c :
  length (p ++ [c]) = kk →
  MarkovModelTree.k_freq tr (p ++ [c])
  = if descend root p is Some _
    then Ok (tally (λ i, cyclic_window text (Z.of_nat kk) i = p ++ [c]) positions)
    else Err AttributeError.
Proof.
  intros Hg. rewrite k_freq_descend.
  pose proof (tree_freq_count p c Hg) as Hcnt. unfold count_at in Hcnt.
  destruct (descend root p) as [x|]; simpl in *; [by rewrite Hcnt | done].
Qed.
End below_length.

(** The table model, for any order. *)
Lemma tables_k_freq text k tb g :
  MarkovModelTables.__init__ text k = Ok tb →
  MarkovModelTables.k_freq tb g
  = if decide (observed text k g)
    then Ok (tally (λ i, cyclic_window text k i = g) (seq 0 (length text)))
    else Err KeyError.
Proof.
  intros Htb.
  destruct (tables_init_Ok text k tb Htb) as (_ & _ & _ & _ & Hcnt & Hdom & _).
  unfold MarkovModelTables.k_freq. specialize (Hcnt g). specialize (Hdom g).
  fold (observed text k g) in Hdom.
  destruct (decide (observed text k g)) as [Hobs|Hobs].
  - apply Hdom in Hobs as [v Hv]. rewrite Hv in *. simpl in *. by rewrite Hcnt.
  - destruct (MarkovModelTables._k_gram_count tb !! g) eqn:E; [|done].
    destruct Hobs. apply Hdom. eauto.
Qed.

Lemma tables_k_follow_freq_built text k tb g s :
  MarkovModelTables.__init__ text k = Ok tb →
  MarkovModelTables.k_follow_freq tb g s
  = if decide (observed text k g)
    then if decide (s < 128)%nat
         then Ok (tally (λ i, cyclic_window text k i = g
                              ∧ successor_at text k i = Ok s)
                    (seq 0 (length text)))
         else Err IndexError
    else Err KeyError.
Proof.
  intros Htb.
  destruct (tables_init_Ok text k tb Htb) as (_ & _ & Hrows & Hsum & _ & Hdom & Hcell).
  rewrite tables_k_follow_freq by done. rewrite Hcell.
  specialize (Hdom g). fold (observed text k g) in Hdom.
  destruct (decide (observed text k g)) as [Hobs|Hobs].
  - apply Hdom in Hobs as [v Hv]. by rewrite Hv.
  - destruct (MarkovModelTables._k_gram_count tb !! g) eqn:E; [|done].
    destruct Hobs. apply Hdom. eauto.
Qed.

(** Both queries on the tree, for a [k]-gram of the text. *)
Lemma tree_queries_observed text k tr g :
  1 ≤ k < Z.of_nat (length text) →
  MarkovModelTree.__init__ text k = Ok tr →
  observed text k g →
  MarkovModelTree.k_freq tr g
  = Ok (tally (λ i, cyclic_window text k i = g) (seq 0 (length text)))
  ∧ ∀ s, MarkovModelTree.k_follow_freq tr g s
         = Ok (tally (λ i, cyclic_window text k i = g ∧ successor_at text k i = Ok s)
                 (seq 0 (length text))).
Proof.
  intros Hk Htr Hobs. rewrite <- (Z2Nat.id k) in * by lia.
  set (kk := Z.to_nat k) in *. assert (kk < length text)%nat as Hkk by lia.
  split; [|intros s; by apply tree_k_follow_freq].
  assert (length g = kk) as Hg.
  { destruct Hobs as (i & Hi & <-).
    by destruct (window_split text kk Hkk i Hi) as (ch & _ & _ & Hlen). }
  destruct (tree_path_observed text kk Hkk tr Htr g Hg) as [_ Hpath].
  specialize (Hpath Hobs).
  destruct g as [|c0 g0] using rev_ind; [simpl in Hg; lia|]. clear IHg0.
  rewrite (tree_k_freq text kk Hkk tr Htr) by done.
  rewrite descend_app in Hpath.
  destruct (descend (MarkovModelTree._root tr) g0); [done|].
  by destruct Hpath.
Qed.

Lemma observed_in_tables_iff text k tb g :
  MarkovModelTables.__init__ text k = Ok tb →
  observed_in_tables tb g ↔ observed text k g.
Proof.
  intros Htb. unfold observed_in_tables, observed.
  destruct (tables_init_Ok text k tb Htb) as (_ & _ & _ & _ & _ & Hdom & _).
  apply Hdom.
Qed.

Lemma observed_in_tree_iff text k tr g :
  0 ≤ k < Z.of_nat (length text) →
  MarkovModelTree.__init__ text k = Ok tr →
  observed_in_tree tr g ↔ observed text k g.
Proof.
  intros Hk Htr. unfold observed_in_tree.
  destruct (tree_init_spec text k) as (tr' & Htr' & Hk' & _).
  rewrite Htr in Htr'. injection Htr' as <-. rewrite Hk'.
  rewrite <- (Z2Nat.id k) in * by lia.
  set (kk := Z.to_nat k) in *. assert (kk < length text)%nat as Hkk by lia.
  split.
  - intros [Hg Hpath]. apply (tree_path_observed text kk Hkk tr Htr); [lia | done].
  - intros Hobs. assert (length g = kk) as Hg.
    { destruct Hobs as (i & Hi & <-).
      by destruct (window_split text kk Hkk i Hi) as (ch & _ & _ & Hlen). }
    split; [lia|]. by apply (tree_path_observed text kk Hkk tr Htr).
Qed.

(** ** Sums over the symbols *)

Lemma sum_over_Ok syms (f : symbol → result Z) (h : symbol → Z) :
  (∀ s, s ∈ syms → f s = Ok (h s)) → sum_over syms f = Ok (zsum syms h).
Proof.
  induction syms as [|s syms IH]; intros Hf; simpl; [done|].
  rewrite (Hf s) by left. simpl. rewrite IH by (intros; apply Hf; by right).
  done.
Qed.

Lemma zsum_ind_eq syms (Q : Prop) `{Decision Q} (ch : symbol) :
  NoDup syms → ch ∈ syms →
  zsum syms (λ s, ind (Q ∧ Ok ch = Ok s)) = ind Q.
Proof.
  induction 1 as [|s syms Hnotin Hnodup IH]; intros Hin; simpl.
  - by apply elem_of_nil in Hin.
  - apply elem_of_cons in Hin as [->|Hin].
    + assert (zsum syms (λ s0, ind (Q ∧ Ok s = Ok s0)) = 0) as Hrest.
      { clear IH. induction syms as [|s' syms IH]; simpl; [done|].
        rewrite IH.
        - rewrite ind_false; [done|]. intros [_ [= ->]]. apply Hnotin. left.
        - intros Hs. apply Hnotin. by right.
        - by inversion Hnodup. }
      rewrite Hrest.
      rewrite (ind_iff (Q ∧ Ok s = Ok s) Q) by tauto. lia.
    + rewrite IH by done.
      rewrite ind_false; [lia|]. intros [_ [= ->]]. done.
Qed.

Lemma zsum_add syms (f h : symbol → Z) :
  zsum syms (λ s, f s + h s) = zsum syms f + zsum syms h.
Proof. induction syms as [|s syms IH]; simpl; [done | rewrite IH; lia]. Qed.

Lemma zsum_zero syms : zsum syms (λ _, 0) = 0.
Proof. induction syms as [|s syms IH]; simpl; [done | by rewrite IH]. Qed.

(** Over a complete list of symbols, the successor tallies of a [k]-gram
    add up to its own tally. *)
Lemma zsum_tally text k g syms positions :
  NoDup syms →
  (∀ i, i ∈ positions → ∃ ch, successor_at text k i = Ok ch ∧ ch ∈ syms) →
  zsum syms (λ s, tally (λ i, cyclic_window text k i = g
                              ∧ successor_at text k i = Ok s) positions)
  = tally (λ i, cyclic_window text k i = g) positions.
Proof.
  intros Hnodup. induction positions as [|i rest IH]; intros Hsucc; simpl.
  - apply zsum_zero.
  - rewrite zsum_add, IH by (intros; apply Hsucc; by right). f_equal.
    destruct (Hsucc i) as (ch & Hch & Hin); [left|].
    rewrite Hch. by apply zsum_ind_eq.
Qed.

(** ** What [to_string] does keep: its lines are sorted *)












(** ** Agreement of the two models *)

(** Both models built from one text agree on every [k]-gram either has
    observed, for the symbols the table has a column for. *)
Lemma cross_model_built text k tr tb g :
  1 ≤ k < Z.of_nat (length text) →
  MarkovModelTree.__init__ text k = Ok tr →
  MarkovModelTables.__init__ text k = Ok tb →
  observed_in_tables tb g ∨ observed_in_tree tr g →
  (is_Ok (MarkovModelTree.k_freq tr g)
   ∧ MarkovModelTree.k_freq tr g = MarkovModelTables.k_freq tb g)
  ∧ ∀ s, (s < 128)%nat →
      is_Ok (MarkovModelTree.k_follow_freq tr g s)
      ∧ MarkovModelTree.k_follow_freq tr g s = MarkovModelTables.k_follow_freq tb g s.
Proof.
  intros Hk Htr Htb Hobs.
  assert (observed text k g) as Hg.
  { destruct Hobs as [Hobs|Hobs].
    - by apply (observed_in_tables_iff text k tb).
    - apply (observed_in_tree_iff text k tr); [lia | done | done]. }
  destruct (tree_queries_observed text k tr g Hk Htr Hg) as [Hfreq Hfollow].
  rewrite Hfreq, (tables_k_freq text k tb g Htb), decide_True by done.
  split; [split; [by eexists | done]|].
  intros s Hs. rewrite Hfollow, (tables_k_follow_freq_built text k tb g s Htb).
  rewrite !decide_True by done. split; [by eexists | done].
Qed.

Lemma prefix_app_short {A : Type} (p w r : list A) :
  (length p ≤ length w)%nat → p `prefix_of` (w ++ r) ↔ p `prefix_of` w.
Proof.
  intros Hlen. split; [|apply prefix_app_r].
  intros [rest Hrest]. exists (drop (length p) w).
  assert (take (length p) (w ++ r) = p) as Hp.
  { rewrite Hrest. apply take_app_length. }
  rewrite take_app_le in Hp by done. rewrite <- Hp at 1.
  by rewrite take_drop.
Qed.

(** ** The random walk *)

Lemma first_positive_ok : sampler_ok (λ _, first_positive).
Proof.
  intros _ ws. induction ws as [|w ws IH]; intros (x & Hx & Hpos).
  - by apply elem_of_nil in Hx.
  - simpl. destruct (Z.ltb_spec 0 w) as [Hw|Hw].
    + exists w. by split_and!.
    + apply elem_of_cons in Hx as [->|Hx]; [lia|].
      destruct IH as (v & Hge & Hv & Hvpos); [eauto|].
      exists v. split_and!; [lia | | done].
      replace (Z.to_nat (1 + first_positive ws))
        with (S (Z.to_nat (first_positive ws))) by lia.
      done.
Qed.

Lemma dict_keys_values_lookup {V : Type} (d : list (symbol * V)) (j : nat) (v : V) :
  dict_values d !! j = Some v → ∃ c, dict_keys d !! j = Some c.
Proof.
  unfold dict_values, dict_keys. rewrite !list_lookup_fmap.
  destruct (d !! j) as [[c v']|]; simpl; [eauto | done].
Qed.

Section walk.
Context (discrete : nat → list Z → Z) (Hsampler : sampler_ok discrete).
Context (text : list symbol) (kk : nat).
Context (Hpos : (1 ≤ kk)%nat) (Hkk : (kk < length text)%nat).
Context (tr : MarkovModelTree.t)
        (Htr : MarkovModelTree.__init__ text (Z.of_nat kk) = Ok tr).

(** From the [k]-gram of a position, [next_char] returns a symbol, and
    the window slides onto the [k]-gram of another position. *)
Lemma next_char_step step i :
  (i < length text)%nat →
  ∃ c j, MarkovModelTree.next_char (discrete step) tr (cyc text i kk) = Ok c
       ∧ (j < length text)%nat
       ∧ drop 1 (cyc text i kk) ++ [c] = cyc text j kk.
Proof.
  intros Hi. set (state := cyc text i kk).
  assert (length state = kk) as Hlen by (apply length_cyc; lia).
  assert (observed text (Z.of_nat kk) state) as Hobs.
  { exists i. split; [done|]. apply cyclic_window_cyc; lia. }
  destruct (tree_facts text kk tr Htr) as (Hwf & Hcnt & Hex).
  destruct (proj2 (tree_path_observed text kk Hkk tr Htr state Hlen) Hobs)
    as [x Hx].
  pose proof (wf_descend _ _ _ Hwf Hx) as Hwfx.
  rewrite next_char_descend, Hx.
  (* some weight is positive: the successor of position [i] *)
  destruct (window_split text kk Hkk i Hi) as (ch & Hch & Hwin & _).
  assert (0 < Node.get_letter_count x ch) as Hchpos.
  { pose proof (tree_follow_count text kk Hkk tr Htr state ch Hlen) as Hc.
    unfold count_at in Hc. rewrite Hx in Hc. simpl in Hc. rewrite Hc.
    apply tally_pos. exists i. split; [apply elem_of_seq; lia|].
    split; [apply cyclic_window_cyc; lia | done]. }
  unfold Node.get_letter_count in Hchpos.
  destruct (dict_get ch (Node._letters_count x)) as [v|] eqn:Hv; [|lia].
  destruct (Hsampler step (dict_values (Node.get_letters_count x)))
    as (w & Hge & Hw & _).
  { exists v. split; [by eapply dict_get_Some_values | done]. }
  destruct (dict_keys_values_lookup _ _ _ Hw) as [c Hc].
  exists c.
  assert (py_index (dict_keys (Node.get_letters_count x))
            (discrete step (dict_values (Node.get_letters_count x))) = Ok c)
    as Hidx.
  { rewrite <- (Z2Nat.id (discrete step _)) by done. by apply py_index_Ok. }
  (* the symbol drawn has a son, so it follows the state somewhere *)
  assert (is_Some (descend (MarkovModelTree._root tr) (state ++ [c]))) as Hpath.
  { rewrite descend_app, Hx. simpl.
    apply list_elem_of_lookup_2 in Hc. unfold Node.get_letters_count in Hc.
    rewrite <- (wf_keys _ Hwfx) in Hc. apply dict_get_Some_keys in Hc as [son Hson].
    unfold Node.get_son. rewrite Hson. simpl. eauto. }
  apply Hex in Hpath as [Hnil|(j & Hj & Hp)].
  { by destruct state. }
  destruct (window_split text kk Hkk j Hj) as (chj & _ & Hwinj & Hlenj).
  rewrite Hwinj in Hp. apply prefix_snoc_snoc in Hp as [Hst ->]; [|lia].
  exists (S j `mod` length text)%nat. split_and!; [done | |].
  - apply Nat.mod_upper_bound. lia.
  - rewrite <- cyc_slide by lia.
    assert (cyc text j (S kk) = state ++ [chj]) as ->.
    { rewrite <- cyclic_window_cyc by lia.
      replace (Z.of_nat (S kk)) with (Z.of_nat kk + 1) by lia. congruence. }
    destruct state; [simpl in Hlen; lia | done].
Qed.

(** Any number of rounds of the walk, from the [k]-gram of a position:
    no round raises and each adds one symbol. *)
Lemma walk_rounds rounds first i tj :
  (i < length text)%nat →
  ∃ state' tj',
    for_each
      (λ step (st : list symbol * list symbol),
         c ← MarkovModelTree.next_char (discrete step) tr st.1;
         Ok (py_slice st.1 (Some 1) None ++ [c], st.2 ++ [c]))
      (seq first rounds) (cyc text i kk, tj)
    = Ok (state', tj')
    ∧ length tj' = (length tj + rounds)%nat.
Proof.
  revert first i tj. induction rounds as [|rounds IH]; intros first i tj Hi.
  - exists (cyc text i kk), tj. split; [done | simpl; lia].
  - cbn [seq for_each fst snd].
    destruct (next_char_step first i Hi) as (c & j & -> & Hj & Hslide).
    cbn [mbind result_bind]. rewrite py_slice_from_1, Hslide.
    destruct (IH (S first) j (tj ++ [c]) Hj) as (state' & tj' & -> & Hlen).
    exists state', tj'. split; [done|].
    rewrite Hlen, length_app. simpl. lia.
Qed.
End walk.

(** On a single positive weight the sampler can only return index 0. *)
Lemma sampler_single discrete (step : nat) (w : Z) :
  sampler_ok discrete → 0 < w → discrete step [w] = 0.
Proof.
  intros Hsampler Hw. destruct (Hsampler step [w]) as (v & Hge & Hv & _).
  { exists w. split; [left | done]. }
  apply lookup_lt_Some in Hv. simpl in Hv. lia.
Qed.

#[local] Arguments MarkovModelTree.next_char : simpl never.

(** Six symbols of a walk that can only alternate. *)
Lemma generate_alternating discrete mm :
  (∀ step, MarkovModelTree.next_char (discrete step) mm [97%nat] = Ok 98%nat) →
  (∀ step, MarkovModelTree.next_char (discrete step) mm [98%nat] = Ok 97%nat) →
  generate discrete mm (py_str "abababab") 1 6 = Ok (py_str "ababab").
Proof.
  intros Ha Hb. unfold generate. simpl.
  rewrite Ha. simpl. rewrite Hb. simpl. rewrite Ha. simpl.
  rewrite Hb. simpl. rewrite Ha. simpl. reflexivity.
Qed.

(** * The claims *)

(** C1 (as amended).  Cross-model equivalence: for every text whose symbols
    are all below 128 and every order [1 <= k < len(text)], both models are
    built, and for every [k]-gram observed in either of them [k_freq]
    returns the same value from both, and so does [k_follow_freq] for
    every symbol below 128. *)
Theorem cross_model_equivalence text k :
  Forall (λ ch, (ch < 128)%nat) text →
  1 ≤ k < Z.of_nat (length text) →
  ∃ tr tb,
    MarkovModelTree.__init__ text k = Ok tr
    ∧ MarkovModelTables.__init__ text k = Ok tb
    ∧ ∀ g, observed_in_tables tb g ∨ observed_in_tree tr g →
        (is_Ok (MarkovModelTree.k_freq tr g)
         ∧ MarkovModelTree.k_freq tr g = MarkovModelTables.k_freq tb g)
        ∧ ∀ s, (s < 128)%nat →
            is_Ok (MarkovModelTree.k_follow_freq tr g s)
            ∧ MarkovModelTree.k_follow_freq tr g s
              = MarkovModelTables.k_follow_freq tb g s.
Proof.
  intros Hascii Hk.
  destruct (tree_init_spec text k) as (tr & Htr & _).
  destruct (tables_init_total text k Hascii) as [tb Htb].
  exists tr, tb. split_and!; [done | done |].
  intros g Hobs. by apply (cross_model_built text k).
Qed.

Lemma cross_model_equivalence_witness :
  ∃ tr tb,
    MarkovModelTree.__init__ (py_str "abracadabra") 2 = Ok tr
    ∧ MarkovModelTables.__init__ (py_str "abracadabra") 2 = Ok tb
    ∧ ∀ g, observed_in_tables tb g ∨ observed_in_tree tr g →
        (is_Ok (MarkovModelTree.k_freq tr g)
         ∧ MarkovModelTree.k_freq tr g = MarkovModelTables.k_freq tb g)
        ∧ ∀ s, (s < 128)%nat →
            is_Ok (MarkovModelTree.k_follow_freq tr g s)
            ∧ MarkovModelTree.k_follow_freq tr g s
              = MarkovModelTables.k_follow_freq tb g s.
Proof.
  apply (cross_model_equivalence (py_str "abracadabra") 2).
  - repeat constructor; simpl; lia.
  - simpl. lia.
Defined.

(** C1 as stated fails on a symbol the table has no column for: on the
    text "ab" with order 1, for the observed 1-gram "a" and the symbol of
    code point 200, the tree returns 0 and the table raises.  It also fails
    on a text with such a symbol: from the code points 97 and 233 with
    order 1 the tree model is built and answers, the table model is not
    built. *)
Lemma cross_model_equivalence_counterexample :
  let text := py_str "ab" in
  let tr := built no_tree (MarkovModelTree.__init__ text 1) in
  let tb := built no_tables (MarkovModelTables.__init__ text 1) in
  let tr' := built no_tree (MarkovModelTree.__init__ [97; 233]%nat 1) in
  (MarkovModelTree.__init__ text 1 = Ok tr
   ∧ MarkovModelTables.__init__ text 1 = Ok tb
   ∧ observed_in_tables tb (py_str "a")
   ∧ MarkovModelTree.k_follow_freq tr (py_str "a") 200%nat = Ok 0
   ∧ MarkovModelTables.k_follow_freq tb (py_str "a") 200%nat = Err IndexError)
  ∧ (MarkovModelTree.__init__ [97; 233]%nat 1 = Ok tr'
     ∧ observed_in_tree tr' [97%nat]
     ∧ MarkovModelTree.k_freq tr' [97%nat] = Ok 1
     ∧ MarkovModelTables.__init__ [97; 233]%nat 1 = Err IndexError).
Proof.
  split_and!; try (vm_compute; reflexivity).
  - exists 1. vm_compute. reflexivity.
  - split; [reflexivity|]. eexists. vm_compute. reflexivity.
Qed.

(** C2 (as amended).  Conservation: for every order [1 <= k < len(text)]
    and every [k]-gram observed during the build, the sum of
    [k_follow_freq] over the symbols equals [k_freq]: in the tree model
    for every text, over any list of distinct symbols that has every symbol
    of the text; in the table model for every text whose symbols are all
    below 128, over the 128 symbols below 128. *)
Theorem conservation text k g :
  1 ≤ k < Z.of_nat (length text) →
  observed text k g →
  (∀ syms,
     NoDup syms → (∀ ch, ch ∈ text → ch ∈ syms) →
     ∃ tr, MarkovModelTree.__init__ text k = Ok tr
       ∧ is_Ok (MarkovModelTree.k_freq tr g)
       ∧ sum_over syms (MarkovModelTree.k_follow_freq tr g)
         = MarkovModelTree.k_freq tr g)
  ∧ (Forall (λ ch, (ch < 128)%nat) text →
     ∃ tb, MarkovModelTables.__init__ text k = Ok tb
       ∧ is_Ok (MarkovModelTables.k_freq tb g)
       ∧ sum_over (seq 0 128) (MarkovModelTables.k_follow_freq tb g)
         = MarkovModelTables.k_freq tb g).
Proof.
  intros Hk Hg. split.
  - intros syms Hnodup Hall.
    destruct (tree_init_spec text k) as (tr & Htr & _). exists tr.
    split; [done|].
    destruct (tree_queries_observed text k tr g Hk Htr Hg) as [Hfreq Hfollow].
    rewrite Hfreq. split; [by eexists|].
    rewrite (sum_over_Ok syms _ _ (λ s _, Hfollow s)). f_equal.
    apply zsum_tally; [done|]. intros i Hi. apply elem_of_seq in Hi.
    destruct (successor_at_Ok text k i) as (ch & Hch & Hin); [lia|]. eauto.
  - intros Hall. destruct (tables_init_total text k Hall) as [tb Htb].
    exists tb. split; [done|].
    rewrite (tables_k_freq text k tb g Htb), decide_True by done.
    split; [by eexists|].
    rewrite (sum_over_Ok (seq 0 128) _
               (λ s, tally (λ i, cyclic_window text k i = g
                                 ∧ successor_at text k i = Ok s)
                       (seq 0 (length text)))).
    + f_equal. apply zsum_tally; [apply NoDup_seq|].
      intros i Hi. apply elem_of_seq in Hi.
      destruct (successor_at_Ok text k i) as (ch & Hch & Hin); [lia|].
      exists ch. split; [done|]. rewrite Forall_forall in Hall.
      apply elem_of_seq. specialize (Hall ch Hin). lia.
    + intros s Hs. apply elem_of_seq in Hs.
      rewrite (tables_k_follow_freq_built text k tb g s Htb).
      rewrite !decide_True by (done || lia). done.
Qed.

Lemma conservation_witness :
  let text := py_str "abracadabra" in
  (∃ tr, MarkovModelTree.__init__ text 2 = Ok tr
     ∧ is_Ok (MarkovModelTree.k_freq tr (py_str "ab"))
     ∧ sum_over (seq 0 128) (MarkovModelTree.k_follow_freq tr (py_str "ab"))
       = MarkovModelTree.k_freq tr (py_str "ab"))
  ∧ (∃ tb, MarkovModelTables.__init__ text 2 = Ok tb
       ∧ is_Ok (MarkovModelTables.k_freq tb (py_str "ab"))
       ∧ sum_over (seq 0 128) (MarkovModelTables.k_follow_freq tb (py_str "ab"))
         = MarkovModelTables.k_freq tb (py_str "ab")).
Proof.
  intros text.
  assert (Forall (λ ch, (ch < 128)%nat) text) as Hascii
    by (repeat constructor; simpl; lia).
  destruct (conservation text 2 (py_str "ab")) as [Htree Htables].
  - simpl. lia.
  - exists 0%nat. split; [simpl; lia | vm_compute; reflexivity].
  - split.
    + apply Htree; [apply NoDup_seq|]. intros ch Hch.
      rewrite Forall_forall in Hascii. apply elem_of_seq.
      specialize (Hascii ch Hch). lia.
    + by apply Htables.
Defined.

(** C2 as stated fails in the table model.  On the text of code points 97
    and 233 with order 1 the 1-gram of code point 97 is observed and the
    table constructor raises, so there is no table to sum in; and on the
    text "ab" with order 1 the sum over the distinct symbols 97, 98 and 200
    raises in the table model, where the tree model returns [k_freq]. *)
Lemma conservation_counterexample :
  let tb := built no_tables (MarkovModelTables.__init__ (py_str "ab") 1) in
  let tr := built no_tree (MarkovModelTree.__init__ (py_str "ab") 1) in
  (observed [97; 233]%nat 1 [97%nat]
   ∧ MarkovModelTables.__init__ [97; 233]%nat 1 = Err IndexError)
  ∧ (observed (py_str "ab") 1 (py_str "a")
     ∧ MarkovModelTables.__init__ (py_str "ab") 1 = Ok tb
     ∧ MarkovModelTree.__init__ (py_str "ab") 1 = Ok tr
     ∧ MarkovModelTables.k_freq tb (py_str "a") = Ok 1
     ∧ sum_over [97; 98; 200]%nat (MarkovModelTables.k_follow_freq tb (py_str "a"))
       = Err IndexError
     ∧ sum_over [97; 98; 200]%nat (MarkovModelTree.k_follow_freq tr (py_str "a"))
       = Ok 1).
Proof.
  split_and!; try (vm_compute; reflexivity);
    (exists 0%nat; split; [simpl; lia | vm_compute; reflexivity]).
Qed.

(** C3 (as amended).  [k_freq] on a [k]-gram that was never observed: the
    table model raises [KeyError]; the tree model, for an order
    [1 <= k < len(text)], returns 0 when the first [k - 1] symbols of the
    [k]-gram occur in the text (always so for [k = 1]) and raises
    [AttributeError] only when they do not. *)
Theorem k_freq_unobserved text k g :
  ¬ observed text k g →
  (∀ tb, MarkovModelTables.__init__ text k = Ok tb →
         MarkovModelTables.k_freq tb g = Err KeyError)
  ∧ (∀ tr, 1 ≤ k < Z.of_nat (length text) → Z.of_nat (length g) = k →
           MarkovModelTree.__init__ text k = Ok tr →
           ((∃ i, (i < length text)%nat
                ∧ take (length g - 1) g `prefix_of` cyclic_window text k i) →
            MarkovModelTree.k_freq tr g = Ok 0)
           ∧ ((∀ i, (i < length text)%nat →
                    ¬ take (length g - 1) g `prefix_of` cyclic_window text k i) →
              MarkovModelTree.k_freq tr g = Err AttributeError)
           ∧ (k = 1 → MarkovModelTree.k_freq tr g = Ok 0)).
Proof.
  intros Hno. split.
  - intros tb Htb. by rewrite (tables_k_freq text k tb g Htb), decide_False.
  - intros tr Hk Hlen Htr. rewrite <- (Z2Nat.id k) in * by lia.
    set (kk := Z.to_nat k) in *. assert (kk < length text)%nat as Hkk by lia.
    destruct g as [|c p _] using rev_ind; [simpl in Hlen; lia|].
    rewrite length_app in *; simpl in *. rewrite Nat.add_sub, take_app_length.
    rewrite (tree_k_freq text kk Hkk tr Htr) by (rewrite length_app; simpl; lia).
    rewrite tally_zero.
    2:{ intros i Hi Heq. apply elem_of_seq in Hi. apply Hno. exists i.
        split; [lia | done]. }
    destruct (tree_facts text kk tr Htr) as (_ & _ & Hex).
    assert (is_Some (descend (MarkovModelTree._root tr) p)
            ↔ ∃ i, (i < length text)%nat
                 ∧ p `prefix_of` cyclic_window text (Z.of_nat kk) i) as Hpath.
    { rewrite Hex. split.
      - intros [->|(i & Hi & Hp)].
        + exists 0%nat. split; [lia | apply prefix_nil].
        + exists i. split; [done|].
          destruct (window_split text kk Hkk i Hi) as (ch & _ & Heq & Hl).
          rewrite Heq in Hp. apply prefix_app_short in Hp; [done | lia].
      - intros (i & Hi & Hp). right. exists i. split; [done|].
        destruct (window_split text kk Hkk i Hi) as (ch & _ & -> & _).
        by apply prefix_app_r. }
    split_and!.
    + intros Hsome. apply Hpath in Hsome as [x ->]. done.
    + intros Hnone.
      destruct (descend (MarkovModelTree._root tr) p) eqn:E; [|done].
      destruct Hpath as [Hpath _]. destruct Hpath as (i & Hi & Hp); [eauto|].
      by destruct (Hnone i Hi).
    + intros Hone. assert (p = []) as -> by (destruct p; simpl in *; [done | lia]).
      done.
Qed.

Lemma k_freq_unobserved_witness :
  let text := py_str "abcab" in
  let tb := built no_tables (MarkovModelTables.__init__ text 2) in
  let tr := built no_tree (MarkovModelTree.__init__ text 2) in
  MarkovModelTables.k_freq tb (py_str "ac") = Err KeyError
  ∧ MarkovModelTree.k_freq tr (py_str "ac") = Ok 0.
Proof.
  intros text tb tr.
  destruct (k_freq_unobserved text 2 (py_str "ac")) as [Htables Htree].
  - intros (i & Hi & Hg). simpl in Hi.
    destruct i as [|[|[|[|[|i]]]]]; vm_compute in Hg; try discriminate Hg. lia.
  - split.
    + apply Htables. vm_compute. reflexivity.
    + destruct (Htree tr) as (Hsome & _ & _);
        [simpl; lia | reflexivity | vm_compute; reflexivity |].
      apply Hsome. exists 0%nat. split; [simpl; lia|].
      exists [98%nat]. vm_compute. reflexivity.
Defined.

(** C3 as stated fails in the tree model: on the text "ab" with order 1,
    [k_freq] on the unseen 1-gram "z" returns 0 and raises nothing. *)
Lemma k_freq_unobserved_counterexample :
  let text := py_str "ab" in
  let tr := built no_tree (MarkovModelTree.__init__ text 1) in
  MarkovModelTree.__init__ text 1 = Ok tr
  ∧ ¬ observed text 1 (py_str "z")
  ∧ MarkovModelTree.k_freq tr (py_str "z") = Ok 0.
Proof.
  split_and!; try (vm_compute; reflexivity).
  intros (i & Hi & Hg). simpl in Hi.
  destruct i as [|[|i]]; vm_compute in Hg; try discriminate Hg. lia.
Qed.

(** C4 (as amended).  The script checks none of its parameters: both models
    are built first, and whenever the trajectory length does not exceed the
    order, on a text without symbols from 128 on, the run succeeds and
    returns [txt[:order]]. *)
Theorem main_no_validation discrete txt order trajectory :
  Forall (λ ch, (ch < 128)%nat) txt →
  trajectory ≤ order →
  is_Ok (MarkovModelTree.__init__ txt order)
  ∧ is_Ok (MarkovModelTables.__init__ txt order)
  ∧ main discrete order trajectory txt = Ok (py_slice txt None (Some order)).
Proof.
  intros Hascii Ht.
  destruct (tree_init_spec txt order) as (tr & Htr & _).
  destruct (tables_init_total txt order Hascii) as [tb Htb].
  split_and!; [by exists tr | by exists tb |].
  unfold main. rewrite Htr, Htb. simpl. unfold generate.
  replace (Z.to_nat (trajectory - order)) with 0%nat by lia. done.
Qed.

Lemma main_no_validation_witness :
  is_Ok (MarkovModelTree.__init__ (py_str "abc") 5)
  ∧ is_Ok (MarkovModelTables.__init__ (py_str "abc") 5)
  ∧ main (λ _, first_positive) 5 1 (py_str "abc")
    = Ok (py_slice (py_str "abc") None (Some 5)).
Proof.
  apply (main_no_validation (λ _, first_positive) (py_str "abc") 5 1).
  - repeat constructor; simpl; lia.
  - lia.
Defined.

(** C4 as stated fails: with order 2 and trajectory length 1 on the text
    "abc" nothing is detected, both models are built and the run returns
    "ab". *)
Lemma main_no_validation_counterexample :
  invalid_parameters 2 1 (py_str "abc")
  ∧ main (λ _, first_positive) 2 1 (py_str "abc") = Ok (py_str "ab").
Proof. split; [right; left; lia | vm_compute; reflexivity]. Qed.

(** C5 (as amended).  Trajectory length: for every text, every order
    [1 <= k < len(text)] and every trajectory length [t >= k], with a sampler
    that returns an index of positive weight, the tree model is built and
    the walk on it returns a trajectory of exactly [t] symbols; the whole
    script returns it when the text has no symbol from 128 on. *)
Theorem trajectory_length discrete txt k t :
  sampler_ok discrete →
  1 ≤ k < Z.of_nat (length txt) →
  k ≤ t →
  ∃ tr tj,
    MarkovModelTree.__init__ txt k = Ok tr
    ∧ generate discrete tr txt k t = Ok tj
    ∧ Z.of_nat (length tj) = t
    ∧ (Forall (λ ch, (ch < 128)%nat) txt → main discrete k t txt = Ok tj).
Proof.
  intros Hsampler Hk Ht.
  destruct (tree_init_spec txt k) as (tr & Htr & _).
  rewrite <- (Z2Nat.id k) in * by lia.
  set (kk := Z.to_nat k) in *. assert (kk < length txt)%nat as Hkk by lia.
  assert (py_slice txt None (Some (Z.of_nat kk)) = cyc txt 0 kk) as Hstate.
  { rewrite py_slice_to. unfold cyc. rewrite drop_0. by rewrite take_app_le by lia. }
  destruct (walk_rounds discrete Hsampler txt kk ltac:(lia) Hkk tr Htr
              (Z.to_nat (t - Z.of_nat kk)) 0%nat 0%nat (cyc txt 0 kk) ltac:(lia))
    as (state' & tj & Hloop & Hlen).
  assert (generate discrete tr txt (Z.of_nat kk) t = Ok tj) as Hgen.
  { unfold generate. rewrite Hstate, Hloop. done. }
  exists tr, tj. split_and!; [done | done | |].
  - rewrite Hlen, length_cyc by lia. lia.
  - intros Hascii. unfold main. rewrite Htr. simpl.
    destruct (tables_init_total txt (Z.of_nat kk) Hascii) as [tb ->]. done.
Qed.

Lemma trajectory_length_witness :
  ∃ tr tj,
    MarkovModelTree.__init__ (py_str "abracadabra") 2 = Ok tr
    ∧ generate (λ _, first_positive) tr (py_str "abracadabra") 2 9 = Ok tj
    ∧ Z.of_nat (length tj) = 9
    ∧ (Forall (λ ch, (ch < 128)%nat) (py_str "abracadabra") →
       main (λ _, first_positive) 2 9 (py_str "abracadabra") = Ok tj).
Proof.
  apply (trajectory_length (λ _, first_positive) (py_str "abracadabra") 2 9).
  - apply first_positive_ok.
  - simpl. lia.
  - lia.
Defined.

(** C5 as stated fails when the text is exactly as long as the order: on
    the text "ab" with order 2 and trajectory length 4 the walk reaches the
    state "ba", which is on no path of the tree, and raises. *)
Lemma trajectory_length_counterexample :
  let txt := py_str "ab" in
  let tr := built no_tree (MarkovModelTree.__init__ txt 2) in
  txt ≠ [] ∧ 1 ≤ 2 ∧ 2 ≤ 4 ∧ 2 ≤ Z.of_nat (length txt)
  ∧ MarkovModelTree.__init__ txt 2 = Ok tr
  ∧ generate (λ _, first_positive) tr txt 2 4 = Err AttributeError
  ∧ main (λ _, first_positive) 2 4 txt = Err AttributeError.
Proof. split_and!; first [by vm_compute | vm_compute; reflexivity]. Qed.

(** C6.  Cyclic wrap-around: over the text "abcde" with order 3 the
    window of four symbols that starts at index 3 is "deab"; the table
    constructor reads it as the 3-gram "dea" and its successor "b", and both
    built models have recorded that successor once.  Every position of the
    text has a window of four symbols and a successor. *)
Theorem cyclic_window_abcde :
  let text := py_str "abcde" in
  cyclic_window text (3 + 1) 3 = py_str "deab"
  ∧ cyclic_window text 3 3 = py_str "dea"
  ∧ successor_at text 3 3 = Ok 98%nat
  ∧ (tr ← MarkovModelTree.__init__ text 3;
     MarkovModelTree.k_follow_freq tr (py_str "dea") 98%nat) = Ok 1
  ∧ (tb ← MarkovModelTables.__init__ text 3;
     MarkovModelTables.k_follow_freq tb (py_str "dea") 98%nat) = Ok 1
  ∧ Forall (λ i, length (cyclic_window text (3 + 1) i) = 4%nat
                 ∧ is_Ok (successor_at text 3 i))
      (seq 0 (length text)).
Proof.
  split_and!; try (vm_compute; reflexivity).
  repeat constructor; by eexists.
Qed.

(** C7.  On the text "abababab" with order 1 the state "a" has the single
    successor "b", with count 4, and the state "b" the single successor
    "a", with count 4; so the walk seeded with "a" returns "ababab" for
    trajectory length 6 whatever the sampler draws. *)
Theorem abab_walk discrete :
  sampler_ok discrete →
  let txt := py_str "abababab" in
  let tr := built no_tree (MarkovModelTree.__init__ txt 1) in
  MarkovModelTree.__init__ txt 1 = Ok tr
  ∧ Node.get_letters_count <$> descend (MarkovModelTree._root tr) (py_str "a")
    = Some [(98%nat, 4)]
  ∧ Node.get_letters_count <$> descend (MarkovModelTree._root tr) (py_str "b")
    = Some [(97%nat, 4)]
  ∧ py_slice txt None (Some 1) = py_str "a"
  ∧ generate discrete tr txt 1 6 = Ok (py_str "ababab")
  ∧ main discrete 1 6 txt = Ok (py_str "ababab").
Proof.
  intros Hsampler txt tr.
  assert (MarkovModelTree.__init__ txt 1 = Ok tr) as Htr by (vm_compute; reflexivity).
  assert (generate discrete tr txt 1 6 = Ok (py_str "ababab")) as Hgen.
  { apply generate_alternating; intros step; rewrite next_char_descend.
    - change (descend (MarkovModelTree._root tr) [97%nat])
        with (Some (Node.mk (Some 97%nat) [(98%nat, Node.__init__ (Some 98%nat))]
                      [(98%nat, 4)])).
      unfold Node.get_letters_count, dict_values, dict_keys. simpl.
      by rewrite (sampler_single discrete step 4 Hsampler).
    - change (descend (MarkovModelTree._root tr) [98%nat])
        with (Some (Node.mk (Some 98%nat) [(97%nat, Node.__init__ (Some 97%nat))]
                      [(97%nat, 4)])).
      unfold Node.get_letters_count, dict_values, dict_keys. simpl.
      by rewrite (sampler_single discrete step 4 Hsampler). }
  split_and!; [done | vm_compute; reflexivity | vm_compute; reflexivity
              | vm_compute; reflexivity | done |].
  unfold main. rewrite Htr. simpl.
  destruct (tables_init_total txt 1) as [tb ->]; [|done].
  repeat constructor; simpl; lia.
Qed.

Lemma abab_walk_witness :
  main (λ _, first_positive) 1 6 (py_str "abababab") = Ok (py_str "ababab").
Proof.
  apply (abab_walk (λ _, first_positive) first_positive_ok).
Defined.

(** C8 (as amended).  For a [k]-gram observed during training and a symbol
    [s] that never follows it in the text, [k_follow_freq] returns 0 in
    the tree model, and in the table model when [s] is below 128; on a
    symbol from 128 on the table model raises [IndexError]. *)
Theorem k_follow_freq_never_followed text k g s :
  observed text k g →
  ¬ follows text k g s →
  (∀ tr, 1 ≤ k < Z.of_nat (length text) →
         MarkovModelTree.__init__ text k = Ok tr →
         MarkovModelTree.k_follow_freq tr g s = Ok 0)
  ∧ (∀ tb, MarkovModelTables.__init__ text k = Ok tb →
           MarkovModelTables.k_follow_freq tb g s
           = if decide (s < 128)%nat then Ok 0 else Err IndexError).
Proof.
  intros Hg Hno.
  assert (tally (λ i, cyclic_window text k i = g ∧ successor_at text k i = Ok s)
            (seq 0 (length text)) = 0) as Hzero.
  { apply tally_zero. intros i Hi [Hw Hs]. apply elem_of_seq in Hi.
    apply Hno. exists i. split; [lia | done]. }
  split.
  - intros tr Hk Htr.
    destruct (tree_queries_observed text k tr g Hk Htr Hg) as [_ ->].
    by rewrite Hzero.
  - intros tb Htb. rewrite (tables_k_follow_freq_built text k tb g s Htb).
    rewrite decide_True by done. by rewrite Hzero.
Qed.

Lemma k_follow_freq_never_followed_witness :
  let text := py_str "abab" in
  let tb := built no_tables (MarkovModelTables.__init__ text 1) in
  let tr := built no_tree (MarkovModelTree.__init__ text 1) in
  MarkovModelTree.k_follow_freq tr (py_str "a") 97%nat = Ok 0
  ∧ MarkovModelTables.k_follow_freq tb (py_str "a") 97%nat = Ok 0.
Proof.
  intros text tb tr.
  destruct (k_follow_freq_never_followed text 1 (py_str "a") 97%nat)
    as [Htree Htables].
  - exists 0%nat. split; [simpl; lia | vm_compute; reflexivity].
  - intros (i & Hi & Hg & Hs). simpl in Hi.
    destruct i as [|[|[|[|i]]]]; vm_compute in Hg, Hs;
      try discriminate Hg; try discriminate Hs. lia.
  - split.
    + apply Htree; [simpl; lia | vm_compute; reflexivity].
    + apply (Htables tb). vm_compute. reflexivity.
Defined.

(** C8 as stated fails in the table model: on the text "ab" with order 1,
    the symbol of code point 200 never follows the observed 1-gram "a",
    and [k_follow_freq] raises [IndexError] instead of returning 0.  It
    also fails in the tree model when the order is not below the length of
    the text: on "ab" with order 2 the 2-gram "ba" is observed, "z" never
    follows it, and [k_follow_freq] raises [AttributeError]. *)
Lemma k_follow_freq_never_followed_counterexample :
  let text := py_str "ab" in
  let tb := built no_tables (MarkovModelTables.__init__ text 1) in
  let tr := built no_tree (MarkovModelTree.__init__ text 2) in
  (MarkovModelTables.__init__ text 1 = Ok tb
   ∧ observed text 1 (py_str "a")
   ∧ ¬ follows text 1 (py_str "a") 200%nat
   ∧ MarkovModelTables.k_follow_freq tb (py_str "a") 200%nat = Err IndexError)
  ∧ (MarkovModelTree.__init__ text 2 = Ok tr
     ∧ observed text 2 (py_str "ba")
     ∧ ¬ follows text 2 (py_str "ba") 122%nat
     ∧ MarkovModelTree.k_follow_freq tr (py_str "ba") 122%nat = Err AttributeError).
Proof.
  split_and!; try (vm_compute; reflexivity).
  - exists 0%nat. split; [simpl; lia | vm_compute; reflexivity].
  - intros (i & Hi & Hg & Hs). simpl in Hi.
    destruct i as [|[|i]]; vm_compute in Hg, Hs;
      try discriminate Hg; try discriminate Hs. lia.
  - exists 1%nat. split; [simpl; lia | vm_compute; reflexivity].
  - intros (i & Hi & Hg & Hs). simpl in Hi.
    destruct i as [|[|i]]; vm_compute in Hg, Hs;
      try discriminate Hg; try discriminate Hs. lia.
Qed.

(** C9, at the input where it fails.  On the text "a", newline, "b" with
    order 1 the three 1-grams give the lines "a: <newline> 1", "<newline>: b 1"
    and "b: a 1"; [to_string] splits what it has written at every newline,
    so it returns six sorted pieces, and neither the line of "a" nor the
    line of the newline is among them. *)
Theorem to_string_newline_text :
  let text := [97; 10; 98]%nat in
  let tr := built no_tree (MarkovModelTree.__init__ text 1) in
  MarkovModelTree.__init__ text 1 = Ok tr
  ∧ observed text 1 [97%nat]
  ∧ (out ← MarkovModelTree.to_string tr; Ok (py_split 10%nat out))
    = Ok [[]; []; py_str " 1"; py_str ": b 1"; py_str "a: "; py_str "b: a 1"]
  ∧ MarkovModelTree.format_line [97%nat] [(10%nat, 1)]
    = py_str "a: " ++ [10%nat] ++ py_str " 1" ++ [10%nat]
  ∧ ∀ out, MarkovModelTree.to_string tr = Ok out →
      py_str "a: " ++ [10%nat] ++ py_str " 1" ∉ py_split 10%nat out.
Proof.
  split_and!; try (vm_compute; reflexivity).
  - exists 0%nat. split; [simpl; lia | vm_compute; reflexivity].
  - intros out Hout. vm_compute in Hout. injection Hout as <-.
    vm_compute. intros Hin.
    repeat (apply elem_of_cons in Hin as [Hin|Hin]; [discriminate Hin|]).
    by apply elem_of_nil in Hin.
Qed.

(** C10.  The table constructor raises [IndexError] on every text with a
    symbol of code point 128 or more, whatever the order, while the tree
    constructor succeeds on it; the table constructor succeeds exactly on
    the texts whose symbols are all below 128. *)
Theorem tables_init_needs_ascii text k :
  (Exists (λ ch, (128 ≤ ch)%nat) text →
   MarkovModelTables.__init__ text k = Err IndexError
   ∧ is_Ok (MarkovModelTree.__init__ text k))
  ∧ (is_Ok (MarkovModelTables.__init__ text k) ↔ Forall (λ ch, (ch < 128)%nat) text).
Proof.
  assert (is_Ok (MarkovModelTables.__init__ text k) ↔ Forall (λ ch, (ch < 128)%nat) text)
    as Hiff.
  { split.
    - intros [tb Htb]. by destruct (tables_init_Ok text k tb Htb) as (Hall & _).
    - apply tables_init_total. }
  split; [|done]. intros Hbig. split.
  - destruct (MarkovModelTables.__init__ text k) as [tb|e] eqn:Hinit.
    + exfalso. assert (Forall (λ ch, (ch < 128)%nat) text) as Hall.
      { apply Hiff. by eexists. }
      apply Exists_exists in Hbig as (ch & Hin & Hge).
      rewrite Forall_forall in Hall. specialize (Hall ch Hin). lia.
    + f_equal. by eapply tables_init_Err.
  - destruct (tree_init_spec text k) as (tr & Htr & _). by exists tr.
Qed.

Lemma tables_init_needs_ascii_witness :
  MarkovModelTables.__init__ [97; 233]%nat 1 = Err IndexError
  ∧ is_Ok (MarkovModelTree.__init__ [97; 233]%nat 1).
Proof.
  apply (tables_init_needs_ascii [97; 233]%nat 1).
  apply Exists_cons_tl, Exists_cons_hd. lia.
Defined.

(** * Further properties of the code *)

(** ** The node and the tree *)



(** X2.  Inserting a word into a well-formed tree never raises; afterwards
    the whole word is a path of the tree, the counts along the word have
    gone up by exactly one, every other count is as before, and the only
    new paths are the prefixes of the word. *)
Theorem add_path_then_lookup w nd :
  wf nd →
  ∃ nd',
    MarkovModelTree.add_path w nd = Ok nd'
    ∧ wf nd'
    ∧ is_Some (descend nd' w)
    ∧ (∀ p c, count_at nd' p c
              = count_at nd p c + (if decide ((p ++ [c]) `prefix_of` w) then 1 else 0))
    ∧ (∀ p, is_Some (descend nd' p) ↔ is_Some (descend nd p) ∨ p `prefix_of` w).
Proof.
  intros Hwf.
  destruct (add_path_spec w nd Hwf) as (nd' & Hadd & Hwf' & Hcnt & Hex).
  exists nd'. split_and!; [done | done | | done | done].
  apply Hex. by right.
Qed.

Lemma add_path_then_lookup_witness :
  ∃ nd',
    MarkovModelTree.add_path (py_str "ab") (Node.__init__ None) = Ok nd'
    ∧ wf nd'
    ∧ is_Some (descend nd' (py_str "ab"))
    ∧ (∀ p c, count_at nd' p c
              = count_at (Node.__init__ None) p c
                + (if decide ((p ++ [c]) `prefix_of` py_str "ab") then 1 else 0))
    ∧ (∀ p, is_Some (descend nd' p)
            ↔ is_Some (descend (Node.__init__ None) p) ∨ p `prefix_of` py_str "ab").
Proof.
  apply (add_path_then_lookup (py_str "ab") (Node.__init__ None)).
  constructor; [reflexivity | constructor].
Defined.

Lemma prefix_iff_take {A : Type} (q l : list A) :
  (length q ≤ length l)%nat → q `prefix_of` l ↔ take (length q) l = q.
Proof.
  intros Hlen. split.
  - intros [rest ->]. apply take_app_length.
  - intros <-. apply prefix_take.
Qed.

Lemma cyc_take text i j w : (j ≤ w)%nat → take j (cyc text i w) = cyc text i j.
Proof. intros Hj. unfold cyc. rewrite take_take. f_equal. lia. Qed.

Lemma prefix_cyc text i w q :
  (i < length text)%nat → (w ≤ length text)%nat → (length q ≤ w)%nat →
  q `prefix_of` cyc text i w ↔ cyc text i (length q) = q.
Proof.
  intros Hi Hw Hq.
  rewrite prefix_iff_take by (rewrite length_cyc; lia).
  by rewrite cyc_take.
Qed.

Section any_length.
Context (text : list symbol) (kk : nat) (Hkk : (kk < length text)%nat).
Context (tr : MarkovModelTree.t)
        (Htr : MarkovModelTree.__init__ text (Z.of_nat kk) = Ok tr).

Lemma tree_count_any p c :
  (length p ≤ kk)%nat →
  count_at (MarkovModelTree._root tr) p c
  = tally (λ i, cyclic_window text (Z.of_nat (length p) + 1) i = p ++ [c])
      (seq 0 (length text)).
Proof.
  intros Hp. destruct (tree_facts text kk tr Htr) as (_ & -> & _).
  apply tally_ext. intros i Hi. apply elem_of_seq in Hi.
  replace (Z.of_nat kk + 1) with (Z.of_nat (S kk)) by lia.
  replace (Z.of_nat (length p) + 1) with (Z.of_nat (S (length p))) by lia.
  rewrite !cyclic_window_cyc by lia.
  rewrite prefix_cyc by (rewrite ?length_app; simpl; lia).
  rewrite length_app. simpl. by rewrite Nat.add_1_r.
Qed.

Lemma tree_path_any p :
  is_Some (descend (MarkovModelTree._root tr) p)
  ↔ (length p ≤ S kk)%nat ∧ observed text (Z.of_nat (length p)) p.
Proof.
  destruct (tree_facts text kk tr Htr) as (_ & _ & ->). unfold observed.
  replace (Z.of_nat kk + 1) with (Z.of_nat (S kk)) by lia. split.
  - intros [->|(i & Hi & Hp)].
    + split; [simpl; lia|]. exists 0%nat. split; [lia|].
      apply (cyclic_window_cyc text 0 0); lia.
    + rewrite cyclic_window_cyc in Hp by lia.
      assert (length p ≤ S kk)%nat as Hlen.
      { apply prefix_length in Hp. rewrite length_cyc in Hp by lia. done. }
      split; [done|]. exists i. split; [done|].
      rewrite cyclic_window_cyc by lia. by apply prefix_cyc in Hp; [|lia..].
  - intros (Hlen & i & Hi & Hp). right. exists i. split; [done|].
    rewrite cyclic_window_cyc in * by lia. by apply prefix_cyc; [lia..|].
Qed.

Lemma tree_follow_any g s :
  (length g ≤ kk)%nat →
  MarkovModelTree.k_follow_freq tr g s
  = if decide (observed text (Z.of_nat (length g)) g)
    then Ok (tally (λ i, cyclic_window text (Z.of_nat (length g) + 1) i = g ++ [s])
               (seq 0 (length text)))
    else Err AttributeError.
Proof.
  intros Hg. rewrite k_follow_freq_descend.
  pose proof (tree_count_any g s Hg) as Hcnt. unfold count_at in Hcnt.
  pose proof (tree_path_any g) as Hpath.
  destruct (decide (observed text (Z.of_nat (length g)) g)) as [Hobs|Hobs].
  - destruct Hpath as [_ [x Hx]]; [split; [lia | done]|].
    rewrite Hx in *. simpl in Hcnt. by rewrite Hcnt.
  - destruct (descend (MarkovModelTree._root tr) g) eqn:E; [|done].
    destruct Hobs. apply Hpath. eauto.
Qed.
End any_length.

(** X3.  The paths of a built tree, for an order [0 <= k < len(text)]:
    following [get_son] along [p] from the root reaches a node exactly when
    [p] has at most [k + 1] symbols and is read somewhere around the text. *)
Theorem tree_paths text k tr p :
  0 ≤ k < Z.of_nat (length text) →
  MarkovModelTree.__init__ text k = Ok tr →
  is_Some (descend (MarkovModelTree._root tr) p)
  ↔ (length p ≤ Z.to_nat k + 1)%nat ∧ observed text (Z.of_nat (length p)) p.
Proof.
  intros Hk Htr. rewrite <- (Z2Nat.id k) in Htr by lia.
  rewrite (tree_path_any text (Z.to_nat k) ltac:(lia) tr Htr p).
  by rewrite Nat.add_1_r.
Qed.

Lemma tree_paths_witness :
  let text := py_str "abcab" in
  let tr := built no_tree (MarkovModelTree.__init__ text 2) in
  is_Some (descend (MarkovModelTree._root tr) (py_str "ca"))
  ↔ (length (py_str "ca") ≤ Z.to_nat 2 + 1)%nat
    ∧ observed text (Z.of_nat (length (py_str "ca"))) (py_str "ca").
Proof.
  intros text tr. apply (tree_paths text 2 tr (py_str "ca")).
  - simpl. lia.
  - vm_compute. reflexivity.
Defined.

(** X4.  A tree of order [k] answers for every shorter context too.  On
    every tree [k_freq] of a string is [k_follow_freq] of its symbols but
    the last and of its last symbol; and on a tree built with
    [0 <= k < len(text)], for a context [g] of at most [k] symbols,
    [k_follow_freq] returns the number of positions at which the text,
    read around its end, shows [g] followed by [s], and raises
    [AttributeError] when [g] is read nowhere. *)
Theorem tree_queries_any_length text k tr g s :
  0 ≤ k < Z.of_nat (length text) →
  MarkovModelTree.__init__ text k = Ok tr →
  (length g ≤ Z.to_nat k)%nat →
  MarkovModelTree.k_freq tr (g ++ [s]) = MarkovModelTree.k_follow_freq tr g s
  ∧ MarkovModelTree.k_follow_freq tr g s
    = if decide (observed text (Z.of_nat (length g)) g)
      then Ok (tally (λ i, cyclic_window text (Z.of_nat (length g) + 1) i = g ++ [s])
                 (seq 0 (length text)))
      else Err AttributeError.
Proof.
  intros Hk Htr Hg. split.
  - by rewrite k_freq_descend, k_follow_freq_descend.
  - rewrite <- (Z2Nat.id k) in Htr by lia.
    by apply (tree_follow_any text (Z.to_nat k)); [lia | |].
Qed.

Lemma tree_queries_any_length_witness :
  let text := py_str "abracadabra" in
  let tr := built no_tree (MarkovModelTree.__init__ text 3) in
  MarkovModelTree.k_freq tr (py_str "a" ++ [98%nat])
  = MarkovModelTree.k_follow_freq tr (py_str "a") 98%nat
  ∧ MarkovModelTree.k_follow_freq tr (py_str "a") 98%nat
    = if decide (observed text (Z.of_nat (length (py_str "a"))) (py_str "a"))
      then Ok (tally (λ i, cyclic_window text (Z.of_nat (length (py_str "a")) + 1) i
                           = py_str "a" ++ [98%nat])
                 (seq 0 (length text)))
      else Err AttributeError.
Proof.
  intros text tr. apply (tree_queries_any_length text 3 tr (py_str "a") 98%nat).
  - simpl. lia.
  - vm_compute. reflexivity.
  - simpl. lia.
Defined.

(** ** The two models side by side *)

Lemma observed_length text (j : nat) g :
  (j ≤ length text)%nat → observed text (Z.of_nat j) g → length g = j.
Proof.
  intros Hj (i & Hi & <-). rewrite cyclic_window_cyc by lia.
  apply length_cyc; lia.
Qed.

Lemma observed_shorter text (j : nat) p c :
  (S j ≤ length text)%nat →
  observed text (Z.of_nat (S j)) (p ++ [c]) → observed text (Z.of_nat j) p.
Proof.
  intros Hj Hobs. pose proof (observed_length text (S j) _ Hj Hobs) as Hlen.
  destruct Hobs as (i & Hi & Hw). exists i. split; [done|].
  rewrite cyclic_window_cyc in * by lia.
  rewrite <- (cyc_take text i j (S j)) by lia. rewrite Hw.
  rewrite length_app in Hlen. simpl in Hlen.
  apply take_app_length'. lia.
Qed.

(** X5.  One tree serves every lower order.  For [1 <= j <= k < len(text)],
    the tree built with order [k] and the table built with order [j] return
    the same [k_freq] on every [j]-gram the table has observed, and the
    same [k_follow_freq] for every symbol below 128. *)
Theorem cross_order_agreement text j k tr tb g :
  1 ≤ j ≤ k → k < Z.of_nat (length text) →
  MarkovModelTree.__init__ text k = Ok tr →
  MarkovModelTables.__init__ text j = Ok tb →
  observed_in_tables tb g →
  (is_Ok (MarkovModelTree.k_freq tr g)
   ∧ MarkovModelTree.k_freq tr g = MarkovModelTables.k_freq tb g)
  ∧ ∀ s, (s < 128)%nat →
      is_Ok (MarkovModelTree.k_follow_freq tr g s)
      ∧ MarkovModelTree.k_follow_freq tr g s = MarkovModelTables.k_follow_freq tb g s.
Proof.
  intros Hj Hk Htr Htb Hobs.
  apply (observed_in_tables_iff text j tb g Htb) in Hobs.
  rewrite <- (Z2Nat.id k) in Htr by lia. rewrite <- (Z2Nat.id j) in * by lia.
  set (kk := Z.to_nat k) in *. set (jj := Z.to_nat j) in *.
  assert (jj ≤ kk)%nat as Hjk by lia.
  assert (kk < length text)%nat as Hkk by lia.
  assert (1 ≤ jj)%nat as Hj1 by lia.
  pose proof (observed_length text jj g ltac:(lia) Hobs) as Hlen.
  rewrite (tables_k_freq text (Z.of_nat jj) tb g Htb), decide_True by done.
  split.
  - destruct g as [|c p _] using rev_ind; [simpl in Hlen; lia|].
    rewrite length_app in Hlen. simpl in Hlen.
    rewrite k_freq_descend, <- k_follow_freq_descend.
    rewrite (tree_follow_any text kk Hkk tr Htr) by lia.
    rewrite decide_True.
    2:{ apply (observed_shorter text (length p) p c); [lia|].
        by replace (S (length p)) with jj by lia. }
    replace (Z.of_nat (length p) + 1) with (Z.of_nat jj) by lia.
    split; [by eexists | done].
  - intros s Hs.
    rewrite (tables_k_follow_freq_built text (Z.of_nat jj) tb g s Htb).
    rewrite !decide_True by done.
    rewrite (tree_follow_any text kk Hkk tr Htr) by lia.
    rewrite Hlen, decide_True by done.
    split; [by eexists|]. f_equal. apply tally_ext. intros i Hi.
    apply elem_of_seq in Hi.
    destruct (window_split text jj ltac:(lia) i ltac:(lia)) as (ch & -> & -> & _).
    split.
    + intros Heq. by apply app_inj_tail in Heq as [-> ->].
    + by intros [-> [= ->]].
Qed.

Lemma cross_order_agreement_witness :
  let text := py_str "abracadabra" in
  let tr := built no_tree (MarkovModelTree.__init__ text 3) in
  let tb := built no_tables (MarkovModelTables.__init__ text 2) in
  (is_Ok (MarkovModelTree.k_freq tr (py_str "ab"))
   ∧ MarkovModelTree.k_freq tr (py_str "ab") = MarkovModelTables.k_freq tb (py_str "ab"))
  ∧ ∀ s, (s < 128)%nat →
      is_Ok (MarkovModelTree.k_follow_freq tr (py_str "ab") s)
      ∧ MarkovModelTree.k_follow_freq tr (py_str "ab") s
        = MarkovModelTables.k_follow_freq tb (py_str "ab") s.
Proof.
  intros text tr tb. apply (cross_order_agreement text 2 3 tr tb (py_str "ab")).
  - lia.
  - simpl. lia.
  - vm_compute. reflexivity.
  - vm_compute. reflexivity.
  - exists 2. vm_compute. reflexivity.
Defined.

(** ** The table *)

(** X6.  What the table constructor leaves behind, for every text and every
    order: the two dictionaries have the same keys, every row has 128
    entries, none of them negative, and every row adds up to the count of
    its key. *)
Theorem tables_invariant text k tb :
  MarkovModelTables.__init__ text k = Ok tb →
  (∀ g, is_Some (MarkovModelTables._k_gram_count tb !! g)
        ↔ is_Some (MarkovModelTables._k_gram_letter tb !! g))
  ∧ (∀ g row, MarkovModelTables._k_gram_letter tb !! g = Some row →
              length row = 128%nat
              ∧ Forall (λ v, 0 ≤ v) row
              ∧ MarkovModelTables._k_gram_count tb !! g = Some (py_sum row)).
Proof.
  intros Htb.
  destruct (tables_init_Ok text k tb Htb) as (_ & _ & Hrows & Hsum & _ & _ & Hcell).
  split.
  - intros g. specialize (Hsum g). simpl in Hsum. rewrite <- Hsum.
    by rewrite fmap_is_Some.
  - intros g row Hrow. split_and!.
    + by eapply Hrows.
    + apply Forall_lookup. intros s v Hv.
      specialize (Hcell g s). unfold cell in Hcell. rewrite Hrow in Hcell.
      simpl in Hcell. rewrite Hv in Hcell. simpl in Hcell. rewrite Hcell.
      apply tally_nonneg.
    + specialize (Hsum g). simpl in Hsum. by rewrite Hrow in Hsum.
Qed.

Lemma tables_invariant_witness :
  let tb := built no_tables (MarkovModelTables.__init__ (py_str "abracadabra") 2) in
  (∀ g, is_Some (MarkovModelTables._k_gram_count tb !! g)
        ↔ is_Some (MarkovModelTables._k_gram_letter tb !! g))
  ∧ (∀ g row, MarkovModelTables._k_gram_letter tb !! g = Some row →
              length row = 128%nat
              ∧ Forall (λ v, 0 ≤ v) row
              ∧ MarkovModelTables._k_gram_count tb !! g = Some (py_sum row)).
Proof.
  intros tb. apply (tables_invariant (py_str "abracadabra") 2 tb).
  vm_compute. reflexivity.
Defined.

(** X7.  What the table answers, for every text and every order.  [k_freq]
    returns the number of positions whose window is the [k]-gram, and
    raises [KeyError] when there is none.  [k_follow_freq] raises [KeyError]
    in that same case; otherwise it raises [IndexError] on a symbol from 128
    on, and returns the number of positions that have the [k]-gram as
    window and the symbol as successor. *)
Theorem tables_queries text k tb g s :
  MarkovModelTables.__init__ text k = Ok tb →
  MarkovModelTables.k_freq tb g
  = (if decide (observed text k g)
     then Ok (tally (λ i, cyclic_window text k i = g) (seq 0 (length text)))
     else Err KeyError)
  ∧ MarkovModelTables.k_follow_freq tb g s
    = (if decide (observed text k g)
       then if decide (s < 128)%nat
            then Ok (tally (λ i, cyclic_window text k i = g
                                 ∧ successor_at text k i = Ok s)
                       (seq 0 (length text)))
            else Err IndexError
       else Err KeyError).
Proof.
  intros Htb. split.
  - by apply tables_k_freq.
  - by apply tables_k_follow_freq_built.
Qed.

Lemma tables_queries_witness :
  let text := py_str "abracadabra" in
  let tb := built no_tables (MarkovModelTables.__init__ text 2) in
  MarkovModelTables.k_freq tb (py_str "ab")
  = (if decide (observed text 2 (py_str "ab"))
     then Ok (tally (λ i, cyclic_window text 2 i = py_str "ab") (seq 0 (length text)))
     else Err KeyError)
  ∧ MarkovModelTables.k_follow_freq tb (py_str "ab") 114%nat
    = (if decide (observed text 2 (py_str "ab"))
       then if decide (114 < 128)%nat
            then Ok (tally (λ i, cyclic_window text 2 i = py_str "ab"
                                 ∧ successor_at text 2 i = Ok 114%nat)
                       (seq 0 (length text)))
            else Err IndexError
       else Err KeyError).
Proof.
  intros text tb. apply (tables_queries text 2 tb (py_str "ab") 114%nat).
  vm_compute. reflexivity.
Defined.

Lemma count_total_insert (m : gmap (list symbol) Z) g v :
  count_total (<[g := v]> m) = count_total m - default 0 (m !! g) + v.
Proof.
  unfold count_total.
  assert (∀ (m' : gmap (list symbol) Z) w, m' !! g = None →
            map_fold (λ _ x acc, x + acc) 0 (<[g := w]> m')
            = w + map_fold (λ _ x acc, x + acc) 0 m') as Hfresh.
  { intros m' w Hnone. apply (map_fold_insert_L (λ _ x acc, x + acc)); [|done].
    intros. lia. }
  destruct (m !! g) as [old|] eqn:Hg; simpl.
  - rewrite <- (insert_delete_eq m), Hfresh by apply lookup_delete_eq.
    rewrite <- (insert_id m g old) at 2 by done.
    rewrite <- (insert_delete_eq m), Hfresh by apply lookup_delete_eq. lia.
  - rewrite Hfresh by done. lia.
Qed.

Lemma tables_loop_count_total text k positions st st' :
  for_each (MarkovModelTables.init_step text k) positions st = Ok st' →
  count_total st'.1 = count_total st.1 + Z.of_nat (length positions).
Proof.
  revert st. induction positions as [|i rest IH]; intros st; simpl.
  - intros [= <-]. lia.
  - intros Hloop. inv_bind Hloop. rewrite (IH a Hloop).
    rewrite init_step_eq in Ha.
    destruct (successor_at text k i) as [ch|]; simpl in Ha; [|done].
    destruct (py_index _ (ord ch)) as [v|]; simpl in Ha; [|done].
    injection Ha as <-. simpl. rewrite count_total_insert. lia.
Qed.

(** X8.  The counts of a built table add up to the length of the text, for
    every order; and for an order [0 <= k <= len(text)] every key has
    exactly [k] symbols, so that a query with a string of another length
    raises [KeyError]. *)
Theorem tables_keys_and_total text k tb :
  MarkovModelTables.__init__ text k = Ok tb →
  count_total (MarkovModelTables._k_gram_count tb) = Z.of_nat (length text)
  ∧ (0 ≤ k ≤ Z.of_nat (length text) →
     ∀ g, (observed_in_tables tb g → Z.of_nat (length g) = k)
          ∧ (Z.of_nat (length g) ≠ k →
             MarkovModelTables.k_freq tb g = Err KeyError
             ∧ ∀ s, MarkovModelTables.k_follow_freq tb g s = Err KeyError)).
Proof.
  intros Htb. split.
  - unfold MarkovModelTables.__init__ in Htb. inv_bind Htb. injection Htb as <-.
    simpl. rewrite (tables_loop_count_total _ _ _ _ _ Ha).
    rewrite length_seq. unfold count_total. simpl. by rewrite map_fold_empty.
  - intros Hk g.
    assert (observed text k g → Z.of_nat (length g) = k) as Hlen.
    { intros Hobs. rewrite <- (Z2Nat.id k) in Hobs by lia.
      apply observed_length in Hobs; lia. }
    split.
    + intros Hobs. apply Hlen. by apply (observed_in_tables_iff text k tb).
    + intros Hne. split; [|intros s].
      * rewrite (tables_k_freq text k tb g Htb), decide_False; [done | tauto].
      * rewrite (tables_k_follow_freq_built text k tb g s Htb), decide_False;
          [done | tauto].
Qed.

Lemma tables_keys_and_total_witness :
  let text := py_str "abracadabra" in
  let tb := built no_tables (MarkovModelTables.__init__ text 2) in
  count_total (MarkovModelTables._k_gram_count tb) = Z.of_nat (length text)
  ∧ (0 ≤ 2 ≤ Z.of_nat (length text) →
     ∀ g, (observed_in_tables tb g → Z.of_nat (length g) = 2)
          ∧ (Z.of_nat (length g) ≠ 2 →
             MarkovModelTables.k_freq tb g = Err KeyError
             ∧ ∀ s, MarkovModelTables.k_follow_freq tb g s = Err KeyError)).
Proof.
  intros text tb. apply (tables_keys_and_total text 2 tb).
  vm_compute. reflexivity.
Defined.

(** ** Drawing the next symbol *)

Lemma follows_window text (kk : nat) g c :
  (kk < length text)%nat →
  follows text (Z.of_nat kk) g c ↔ observed text (Z.of_nat kk + 1) (g ++ [c]).
Proof.
  intros Hkk. unfold follows, observed. split.
  - intros (i & Hi & Hg & Hs). exists i. split; [done|].
    destruct (window_split text kk Hkk i Hi) as (ch & Hch & -> & _).
    rewrite Hg. rewrite Hs in Hch. by injection Hch as ->.
  - intros (i & Hi & Hw). exists i. split; [done|].
    destruct (window_split text kk Hkk i Hi) as (ch & Hch & Heq & Hlen).
    rewrite Heq in Hw. apply app_inj_tail in Hw as [-> ->]. done.
Qed.

Lemma tree_next_char_follows discrete text (kk : nat) tr step g :
  sampler_ok discrete →
  (kk < length text)%nat →
  MarkovModelTree.__init__ text (Z.of_nat kk) = Ok tr →
  observed text (Z.of_nat kk) g →
  ∃ c, MarkovModelTree.next_char (discrete step) tr g = Ok c
     ∧ follows text (Z.of_nat kk) g c.
Proof.
  intros Hsampler Hkk Htr Hobs.
  pose proof (observed_length text kk g ltac:(lia) Hobs) as Hlen.
  destruct (tree_facts text kk tr Htr) as (Hwf & Hcnt & Hex).
  destruct (proj2 (tree_path_observed text kk Hkk tr Htr g Hlen) Hobs) as [x Hx].
  pose proof (wf_descend _ _ _ Hwf Hx) as Hwfx.
  rewrite next_char_descend, Hx.
  destruct Hobs as (i & Hi & Hgi).
  destruct (window_split text kk Hkk i Hi) as (ch & Hch & Hwin & _).
  assert (0 < Node.get_letter_count x ch) as Hchpos.
  { pose proof (tree_follow_count text kk Hkk tr Htr g ch Hlen) as Hc.
    unfold count_at in Hc. rewrite Hx in Hc. simpl in Hc. rewrite Hc.
    apply tally_pos. exists i. split; [apply elem_of_seq; lia | done]. }
  unfold Node.get_letter_count in Hchpos.
  destruct (dict_get ch (Node._letters_count x)) as [v|] eqn:Hv; [|lia].
  destruct (Hsampler step (dict_values (Node.get_letters_count x)))
    as (w & Hge & Hw & _).
  { exists v. split; [by eapply dict_get_Some_values | done]. }
  destruct (dict_keys_values_lookup _ _ _ Hw) as [c Hc].
  exists c. split.
  { rewrite <- (Z2Nat.id (discrete step _)) by done. by apply py_index_Ok. }
  apply follows_window; [done|].
  assert (is_Some (descend (MarkovModelTree._root tr) (g ++ [c]))) as Hpath.
  { rewrite descend_app, Hx. simpl.
    apply list_elem_of_lookup_2 in Hc. unfold Node.get_letters_count in Hc.
    rewrite <- (wf_keys _ Hwfx) in Hc. apply dict_get_Some_keys in Hc as [son Hson].
    unfold Node.get_son. rewrite Hson. simpl. eauto. }
  apply Hex in Hpath as [Hnil|(j & Hj & Hp)]; [by destruct g|].
  exists j. split; [done|].
  destruct (window_split text kk Hkk j Hj) as (chj & _ & Hwinj & Hlenj).
  rewrite Hwinj in *. apply prefix_snoc_snoc in Hp as [-> ->]; [done | lia].
Qed.

(** X9.  [MarkovModelTree.next_char], on a tree built with
    [0 <= k < len(text)] and with a sampler that returns an index of
    positive weight: on a [k]-gram of the text it returns a symbol that
    follows that [k]-gram somewhere in the text; on any other string of [k]
    symbols it raises [AttributeError]. *)
Theorem tree_next_char discrete text k tr step g :
  sampler_ok discrete →
  0 ≤ k < Z.of_nat (length text) →
  MarkovModelTree.__init__ text k = Ok tr →
  Z.of_nat (length g) = k →
  (observed text k g →
   ∃ c, MarkovModelTree.next_char (discrete step) tr g = Ok c ∧ follows text k g c)
  ∧ (¬ observed text k g →
     MarkovModelTree.next_char (discrete step) tr g = Err AttributeError).
Proof.
  intros Hsampler Hk Htr Hlen. rewrite <- (Z2Nat.id k) in * by lia.
  set (kk := Z.to_nat k) in *. assert (kk < length text)%nat as Hkk by lia.
  split.
  - by apply tree_next_char_follows.
  - intros Hno. rewrite next_char_descend.
    destruct (descend (MarkovModelTree._root tr) g) eqn:E; [|done].
    destruct Hno. apply (tree_path_observed text kk Hkk tr Htr g); [lia | eauto].
Qed.

Lemma tree_next_char_witness :
  let text := py_str "abracadabra" in
  let tr := built no_tree (MarkovModelTree.__init__ text 2) in
  (observed text 2 (py_str "ab") →
   ∃ c, MarkovModelTree.next_char first_positive tr (py_str "ab") = Ok c
      ∧ follows text 2 (py_str "ab") c)
  ∧ (¬ observed text 2 (py_str "ab") →
     MarkovModelTree.next_char first_positive tr (py_str "ab") = Err AttributeError).
Proof.
  intros text tr.
  apply (tree_next_char (λ _, first_positive) text 2 tr 0%nat (py_str "ab")).
  - apply first_positive_ok.
  - simpl. lia.
  - vm_compute. reflexivity.
  - reflexivity.
Defined.

(** X10.  [MarkovModelTables.next_char], on a built table of any order and
    with a sampler that returns an index of positive weight: on a [k]-gram
    the table has observed it returns a symbol that follows that [k]-gram
    somewhere in the text, and neither [chr] nor the lookup raises; on any
    other string it raises [KeyError]. *)
Theorem tables_next_char discrete text k tb step g :
  sampler_ok discrete →
  MarkovModelTables.__init__ text k = Ok tb →
  (observed text k g →
   ∃ c, MarkovModelTables_next_char (discrete step) tb g = inr c
      ∧ follows text k g c)
  ∧ (¬ observed text k g →
     MarkovModelTables_next_char (discrete step) tb g = inl (StdErr KeyError)).
Proof.
  intros Hsampler Htb.
  destruct (tables_init_Ok text k tb Htb)
    as (_ & _ & Hrows & Hsum & _ & Hdom & Hcell).
  unfold MarkovModelTables_next_char.
  specialize (Hsum g). simpl in Hsum. specialize (Hdom g).
  fold (observed text k g) in Hdom. split.
  - intros Hobs. pose proof Hobs as Hobs'. apply Hdom in Hobs' as [n Hn].
    rewrite Hn in Hsum.
    destruct (MarkovModelTables._k_gram_letter tb !! g) as [row|] eqn:Hrow;
      [|done].
    pose proof (Hrows g row Hrow) as Hlen.
    assert (∀ s, default 0 (row !! s)
                 = tally (λ i, cyclic_window text k i = g
                               ∧ successor_at text k i = Ok s)
                     (seq 0 (length text))) as Hrowcell.
    { intros s. rewrite <- Hcell. unfold cell. by rewrite Hrow. }
    destruct Hobs as (i & Hi & Hgi).
    destruct (successor_at_Ok text k i Hi) as (ch & Hch & _).
    assert (0 < default 0 (row !! ch)) as Hpos.
    { rewrite Hrowcell. apply tally_pos. exists i.
      split; [apply elem_of_seq; lia | done]. }
    destruct (row !! ch) as [v|] eqn:Hv; simpl in Hpos; [|lia].
    destruct (Hsampler step row) as (w & Hge & Hw & Hwpos).
    { exists v. split; [by eapply list_elem_of_lookup_2 | done]. }
    pose proof (lookup_lt_Some _ _ _ Hw) as Hidx.
    exists (Z.to_nat (discrete step row)). split.
    + unfold py_chr.
      rewrite (proj2 (Z.leb_le _ _)), (proj2 (Z.ltb_lt _ _)) by lia. done.
    + specialize (Hrowcell (Z.to_nat (discrete step row))).
      rewrite Hw in Hrowcell. simpl in Hrowcell.
      assert (0 < tally (λ i, cyclic_window text k i = g
                              ∧ successor_at text k i
                                = Ok (Z.to_nat (discrete step row)))
                    (seq 0 (length text))) as Htally by lia.
      apply tally_pos in Htally as (j & Hj & Hgj & Hsj).
      apply elem_of_seq in Hj. exists j. split; [lia | done].
  - intros Hno.
    destruct (MarkovModelTables._k_gram_letter tb !! g) as [row|] eqn:Hrow;
      [|done].
    destruct Hno. apply Hdom. rewrite <- Hsum. simpl. eauto.
Qed.

Lemma tables_next_char_witness :
  let text := py_str "abracadabra" in
  let tb := built no_tables (MarkovModelTables.__init__ text 2) in
  (observed text 2 (py_str "ab") →
   ∃ c, MarkovModelTables_next_char first_positive tb (py_str "ab") = inr c
      ∧ follows text 2 (py_str "ab") c)
  ∧ (¬ observed text 2 (py_str "ab") →
     MarkovModelTables_next_char first_positive tb (py_str "ab")
     = inl (StdErr KeyError)).
Proof.
  intros text tb.
  apply (tables_next_char (λ _, first_positive) text 2 tb 0%nat (py_str "ab")).
  - apply first_positive_ok.
  - vm_compute. reflexivity.
Defined.

(** ** The walk and the script *)

Section walk_windows.
Context (discrete : nat → list Z → Z) (Hsampler : sampler_ok discrete).
Context (text : list symbol) (kk : nat).
Context (Hpos : (1 ≤ kk)%nat) (Hkk : (kk < length text)%nat).
Context (tr : MarkovModelTree.t)
        (Htr : MarkovModelTree.__init__ text (Z.of_nat kk) = Ok tr).

Local Abbreviation in_text := (stretches_in_text text kk).

Lemma walk_rounds_windows rounds first state tj :
  observed text (Z.of_nat kk) state →
  (kk ≤ length tj)%nat →
  drop (length tj - kk) tj = state →
  in_text tj →
  ∃ state' tj',
    for_each
      (λ step (st : list symbol * list symbol),
         c ← MarkovModelTree.next_char (discrete step) tr st.1;
         Ok (py_slice st.1 (Some 1) None ++ [c], st.2 ++ [c]))
      (seq first rounds) (state, tj)
    = Ok (state', tj')
    ∧ length tj' = (length tj + rounds)%nat
    ∧ tj `prefix_of` tj'
    ∧ in_text tj'.
Proof.
  revert first state tj.
  induction rounds as [|rounds IH]; intros first state tj Hobs Hlen Hlast Hin.
  - exists state, tj. split_and!; [done | simpl; lia | done | done].
  - cbn [seq for_each fst snd].
    destruct (tree_next_char_follows discrete text kk tr first state
                Hsampler Hkk Htr Hobs) as (c & -> & Hfol).
    cbn [mbind result_bind]. rewrite py_slice_from_1.
    apply follows_window in Hfol; [|done].
    pose proof (observed_length text kk state ltac:(lia) Hobs) as Hstate.
    assert (drop (length (tj ++ [c]) - kk) (tj ++ [c]) = drop 1 state ++ [c])
      as Hlast'.
    { rewrite length_app. simpl.
      replace (length tj + 1 - kk)%nat with (length tj - kk + 1)%nat by lia.
      rewrite drop_app_le by lia. rewrite <- drop_drop. by rewrite Hlast. }
    assert (observed text (Z.of_nat kk) (drop 1 state ++ [c])) as Hobs'.
    { destruct Hfol as (j & Hj & Hw).
      exists (S j `mod` length text)%nat.
      split; [apply Nat.mod_upper_bound; lia|].
      replace (Z.of_nat kk + 1) with (Z.of_nat (S kk)) in Hw by lia.
      rewrite cyclic_window_cyc in * by (try apply Nat.mod_upper_bound; lia).
      rewrite <- cyc_slide, Hw by lia.
      destruct state; [simpl in Hstate; lia | done]. }
    destruct (IH (S first) (drop 1 state ++ [c]) (tj ++ [c]) Hobs')
      as (state' & tj' & -> & Hlen' & Hpre & Hin').
    + rewrite length_app. simpl. lia.
    + done.
    + intros j Hj. rewrite length_app in Hj. simpl in Hj.
      destruct (decide (j + S kk ≤ length tj)%nat) as [Hold|Hnew].
      * rewrite drop_app_le by lia.
        rewrite take_app_le by (rewrite length_drop; lia). by apply Hin.
      * assert (j = length tj - kk)%nat as -> by lia.
        rewrite drop_app_le by lia. rewrite Hlast.
        rewrite take_ge by (rewrite length_app; simpl; lia). done.
    + exists state', tj'. split_and!; [done | | | done].
      * rewrite Hlen', length_app. simpl. lia.
      * etrans; [|done]. by apply prefix_app_r.
Qed.
End walk_windows.

(** X11.  The walk never leaves the text.  For [1 <= k < len(text)],
    [t >= k] and a sampler that returns an index of positive weight, the
    trajectory starts with the first [k] symbols of the text, and each of
    its stretches of [k + 1] symbols is a window of [k + 1] symbols of the
    text, read around its end. *)
Theorem walk_stays_in_text discrete txt k t :
  sampler_ok discrete →
  1 ≤ k < Z.of_nat (length txt) →
  k ≤ t →
  ∃ tr tj,
    MarkovModelTree.__init__ txt k = Ok tr
    ∧ generate discrete tr txt k t = Ok tj
    ∧ take (Z.to_nat k) tj = take (Z.to_nat k) txt
    ∧ ∀ j, (j + Z.to_nat k + 1 ≤ length tj)%nat →
           observed txt (k + 1) (take (Z.to_nat k + 1) (drop j tj)).
Proof.
  intros Hsampler Hk Ht.
  destruct (tree_init_spec txt k) as (tr & Htr & _).
  rewrite <- (Z2Nat.id k) in * by lia. rewrite Nat2Z.id.
  set (kk := Z.to_nat k) in *. assert (kk < length txt)%nat as Hkk by lia.
  assert (py_slice txt None (Some (Z.of_nat kk)) = take kk txt) as Hstate
    by apply py_slice_to.
  assert (length (take kk txt) = kk) as Hlen by (rewrite length_take; lia).
  destruct (walk_rounds_windows discrete Hsampler txt kk ltac:(lia) Hkk tr Htr
              (Z.to_nat (t - Z.of_nat kk)) 0%nat (take kk txt) (take kk txt))
    as (state' & tj & Hloop & Hlen' & Hpre & Hin).
  - exists 0%nat. split; [lia|]. rewrite cyclic_window_cyc by lia.
    unfold cyc. rewrite drop_0. by rewrite take_app_le by lia.
  - lia.
  - rewrite Hlen, Nat.sub_diag. apply drop_0.
  - intros j Hj. lia.
  - exists tr, tj. split_and!; [done | | |].
    + unfold generate. rewrite Hstate, Hloop. done.
    + destruct Hpre as [rest ->]. rewrite take_app_le by lia.
      rewrite take_ge by lia. done.
    + intros j Hj. rewrite Nat.add_1_r. apply Hin. lia.
Qed.

Lemma walk_stays_in_text_witness :
  ∃ tr tj,
    MarkovModelTree.__init__ (py_str "abracadabra") 2 = Ok tr
    ∧ generate (λ _, first_positive) tr (py_str "abracadabra") 2 9 = Ok tj
    ∧ take (Z.to_nat 2) tj = take (Z.to_nat 2) (py_str "abracadabra")
    ∧ ∀ j, (j + Z.to_nat 2 + 1 ≤ length tj)%nat →
           observed (py_str "abracadabra") (2 + 1)
             (take (Z.to_nat 2 + 1) (drop j tj)).
Proof.
  apply (walk_stays_in_text (λ _, first_positive) (py_str "abracadabra") 2 9).
  - apply first_positive_ok.
  - simpl. lia.
  - lia.
Defined.

(** X12.  The script builds the table model although the walk only uses
    the tree: on every text with a symbol from 128 on it raises
    [IndexError] before any symbol is generated, whatever the order, the
    trajectory length and the sampler. *)
Theorem main_fails_on_wide_symbol discrete order trajectory txt :
  Exists (λ ch, (128 ≤ ch)%nat) txt →
  main discrete order trajectory txt = Err IndexError.
Proof.
  intros Hbig. unfold main.
  destruct (tree_init_spec txt order) as (tr & -> & _). simpl.
  destruct (MarkovModelTables.__init__ txt order) as [tb|e] eqn:Htb; simpl.
  - exfalso. destruct (tables_init_Ok txt order tb Htb) as (Hall & _).
    apply Exists_exists in Hbig as (ch & Hin & Hge).
    rewrite Forall_forall in Hall. specialize (Hall ch Hin). lia.
  - f_equal. by eapply tables_init_Err.
Qed.

Lemma main_fails_on_wide_symbol_witness :
  main (λ _, first_positive) 1 5 [97; 233; 98]%nat = Err IndexError.
Proof.
  apply (main_fails_on_wide_symbol (λ _, first_positive) 1 5 [97; 233; 98]%nat).
  apply Exists_cons_tl, Exists_cons_hd. lia.
Defined.

(** ** Tidy trees *)

Section dict_more.
Context {K V : Type} `{EqDecision K}.
Implicit Types (d : list (K * V)) (k : K) (v : V).

Lemma dict_set_Forall (P : K * V → Prop) d k v :
  Forall P d → P (k, v) → Forall P (dict_set k v d).
Proof.
  intros Hd Hv. induction d as [|[k' v'] d IH]; simpl.
  - by constructor.
  - inversion Hd; subst. destruct (decide (k = k')); constructor; auto.
Qed.

Lemma dict_set_set d k v v' : dict_set k v (dict_set k v' d) = dict_set k v d.
Proof.
  induction d as [|[k0 v0] d IH]; simpl.
  - by rewrite decide_True.
  - destruct (decide (k = k0)); simpl.
    + by rewrite decide_True.
    + rewrite decide_False by done. by rewrite IH.
Qed.

Lemma dict_get_elem_of d k v : dict_get k d = Some v → (k, v) ∈ d.
Proof.
  induction d as [|[k' v'] d IH]; simpl; [done|].
  destruct (decide (k = k')) as [->|].
  - intros [= ->]. left.
  - intros. right. auto.
Qed.

Lemma dict_get_NoDup d k v :
  NoDup (dict_keys d) → (k, v) ∈ d → dict_get k d = Some v.
Proof.
  unfold dict_keys. induction d as [|[k' v'] d IH]; simpl.
  - intros _ Hin. by apply elem_of_nil in Hin.
  - intros Hnd Hin. apply NoDup_cons in Hnd as [Hnotin Hnd].
    apply elem_of_cons in Hin as [[= -> ->]|Hin].
    + by rewrite decide_True.
    + destruct (decide (k = k')) as [->|]; [|auto].
      destruct Hnotin. apply list_elem_of_fmap. by exists (k', v).
Qed.

Lemma dict_keys_set_NoDup d k v :
  NoDup (dict_keys d) → NoDup (dict_keys (dict_set k v d)).
Proof.
  intros Hnd. destruct (dict_get k d) as [old|] eqn:Hk.
  - rewrite dict_keys_set_old by eauto. done.
  - rewrite dict_keys_set_new by done.
    apply NoDup_app. split_and!; [done | | apply NoDup_singleton].
    intros x Hx Hx'. apply list_elem_of_singleton in Hx' as ->.
    by apply dict_get_None in Hk.
Qed.
End dict_more.

Lemma tidy_wf nd : tidy nd → wf nd.
Proof.
  revert nd. fix IH 2. intros nd [letter ns cs Hkeys _ Hsons _].
  constructor; [done|]. clear Hkeys. unfold dict_values.
  induction Hsons as [|[c n] ns [_ Hn] _ IHns]; simpl; [constructor|].
  constructor; [by apply IH | done].
Qed.

Lemma tidy_init letter : tidy (Node.__init__ letter).
Proof. constructor; [done | apply NoDup_nil_2 | constructor | constructor]. Qed.

Lemma tidy_get_son nd ch son :
  tidy nd → Node.get_son nd ch = Some son →
  tidy son ∧ Node._letter son = Some ch.
Proof.
  intros [letter ns cs _ _ Hsons _]. unfold Node.get_son. simpl. intros Hget.
  apply dict_get_elem_of in Hget. rewrite Forall_forall in Hsons.
  by destruct (Hsons _ Hget).
Qed.

Lemma add_son_tidy nd ch nd' son :
  tidy nd → Node.add_son nd ch = Ok (nd', son) →
  tidy nd' ∧ tidy son ∧ Node._letter son = Some ch
  ∧ Node._letter nd' = Node._letter nd
  ∧ Node.get_son nd' ch = Some son.
Proof.
  intros Htidy Hadd. pose proof (tidy_wf nd Htidy) as Hwf.
  destruct (add_son_wf nd ch Hwf) as (nd1 & Hadd1 & _ & Hson1 & _).
  rewrite Hadd in Hadd1. injection Hadd1 as <- ->.
  assert (tidy (son_or_new nd ch) ∧ Node._letter (son_or_new nd ch) = Some ch)
    as [Hson Hletter].
  { unfold son_or_new. destruct (Node.get_son nd ch) eqn:E; simpl.
    - by eapply tidy_get_son.
    - split; [apply tidy_init | done]. }
  split_and!; try done.
  - clear Hson1. unfold Node.add_son in Hadd.
    destruct Htidy as [letter ns cs Hkeys Hnd Hsons Hcounts]. simpl in *.
    destruct (dict_get ch ns) as [old|] eqn:Hns; simpl in Hadd.
    + destruct (dict_get ch cs) as [c|] eqn:Hcs; simpl in Hadd; [|done].
      rewrite Hns in Hadd. simpl in Hadd. injection Hadd as <-.
      constructor; [| done | done |].
      * by rewrite dict_keys_set_old by eauto.
      * apply dict_values_set_Forall; [done|].
        pose proof (dict_values_get_Forall (λ v, 1 ≤ v) cs ch c Hcounts Hcs) as Hc.
        simpl in Hc. lia.
    + rewrite dict_get_set_eq in Hadd. simpl in Hadd.
      rewrite dict_get_set_eq in Hadd. simpl in Hadd. injection Hadd as <-.
      assert (dict_get ch cs = None) as Hcs.
      { apply dict_get_None. rewrite <- Hkeys. by apply dict_get_None. }
      constructor.
      * rewrite (dict_keys_set_old (dict_set ch 0 cs))
          by (rewrite dict_get_set_eq; eauto).
        rewrite !dict_keys_set_new by done. by rewrite Hkeys.
      * by apply dict_keys_set_NoDup.
      * apply dict_set_Forall; [done|]. split; [done | apply tidy_init].
      * rewrite dict_set_set. apply dict_values_set_Forall; [done|]. simpl. lia.
  - unfold Node.add_son in Hadd.
    destruct (dict_get ch (Node._neighbours nd)); simpl in Hadd;
      inv_bind Hadd; inv_bind Hadd; by injection Hadd as <-.
Qed.

Lemma store_son_tidy nd ch son :
  tidy nd → tidy son → Node._letter son = Some ch →
  is_Some (Node.get_son nd ch) →
  tidy (Node.store_son nd ch son).
Proof.
  intros [letter ns cs Hkeys Hnd Hsons Hcounts] Hson Hletter Hin.
  unfold Node.get_son in Hin. simpl in *. constructor; [| | |done].
  - by rewrite dict_keys_set_old.
  - by apply dict_keys_set_NoDup.
  - by apply dict_set_Forall.
Qed.

Lemma add_path_tidy w nd nd' :
  tidy nd → MarkovModelTree.add_path w nd = Ok nd' →
  tidy nd' ∧ Node._letter nd' = Node._letter nd.
Proof.
  revert nd nd'. induction w as [|ch rest IH]; intros nd nd' Htidy; simpl.
  - by intros [= <-].
  - intros Hadd. apply bind_Ok in Hadd as ([nd1 son] & Ha & Hadd).
    apply bind_Ok in Hadd as (son' & Hrest & Hadd). injection Hadd as <-.
    destruct (add_son_tidy nd ch nd1 son Htidy Ha)
      as (Htidy1 & Hson & Hletter & Hsame & Hget).
    destruct (IH son son' Hson Hrest) as [Hson' Hletter'].
    split; [|done].
    apply store_son_tidy; [done | done | congruence | eauto].
Qed.

Lemma tree_loop_tidy (win : nat → list symbol) positions nd nd' :
  tidy nd →
  for_each (λ i root, MarkovModelTree.add_path (win i) root) positions nd = Ok nd' →
  tidy nd'.
Proof.
  revert nd. induction positions as [|i rest IH]; intros nd Htidy; simpl.
  - by intros [= <-].
  - intros Hloop. inv_bind Hloop. apply (IH a); [|done].
    by destruct (add_path_tidy _ _ _ Htidy Ha).
Qed.

Lemma tree_root_tidy text k tr :
  MarkovModelTree.__init__ text k = Ok tr →
  MarkovModelTree._k tr = k ∧ tidy (MarkovModelTree._root tr).
Proof.
  intros Htr. unfold MarkovModelTree.__init__ in Htr. inv_bind Htr.
  injection Htr as <-. simpl. split; [done|].
  eapply tree_loop_tidy; [apply tidy_init | done].
Qed.

(** X13.  The tree constructor never raises, for every text and every
    order, and the tree it builds is tidy: in every node the two
    dictionaries have the same keys in the same order, every count is at
    least one, and every son carries the letter it is filed under. *)
Theorem tree_init_tidy text k :
  ∃ tr, MarkovModelTree.__init__ text k = Ok tr
    ∧ MarkovModelTree.order tr = k
    ∧ tidy (MarkovModelTree._root tr).
Proof.
  destruct (tree_init_spec text k) as (tr & Htr & Hk & _).
  exists tr. split_and!; [done | done |].
  by destruct (tree_root_tidy text k tr Htr).
Qed.

(** ** [to_string] on a tidy tree *)










(** ** The lines of [to_string] *)

Lemma tidy_descend nd g x : tidy nd → descend nd g = Some x → tidy x.
Proof.
  revert nd. induction g as [|c g IH]; simpl; intros nd Htidy.
  - by intros [= <-].
  - destruct (Node.get_son nd c) as [son|] eqn:Hson; simpl; [|done].
    apply IH. by destruct (tidy_get_son _ _ _ Htidy Hson).
Qed.










(** The keys of a node's counts are the node's sons. *)
Lemma tidy_counts_sons nd c v :
  tidy nd → (c, v) ∈ Node.get_letters_count nd → is_Some (Node.get_son nd c).
Proof.
  intros [letter ns cs Hkeys _ _ _]. unfold Node.get_son. simpl. intros Hin.
  apply dict_get_Some_keys. rewrite Hkeys. unfold dict_keys.
  apply list_elem_of_fmap. by exists (c, v).
Qed.



(** X16.  What a node of a built tree holds, whatever the text and the
    order: its counts have one entry for each letter, the letters with an
    entry are those with a son, and the entries are the positive answers of
    [k_follow_freq] for the path that leads to the node. *)
Theorem node_counts text k tr g nd :
  MarkovModelTree.__init__ text k = Ok tr →
  descend (MarkovModelTree._root tr) g = Some nd →
  NoDup (dict_keys (Node.get_letters_count nd))
  ∧ (∀ c, is_Some (Node.get_son nd c) ↔ 1 ≤ Node.get_letter_count nd c)
  ∧ (∀ c v, (c, v) ∈ Node.get_letters_count nd
            ↔ 1 ≤ v ∧ MarkovModelTree.k_follow_freq tr g c = Ok v).
Proof.
  intros Htr Hnd. destruct (tree_root_tidy text k tr Htr) as [_ Htidy].
  pose proof (tidy_descend _ _ _ Htidy Hnd) as Htidy'.
  assert (∀ c v, (c, v) ∈ Node.get_letters_count nd
                 ↔ 1 ≤ v ∧ Node.get_letter_count nd c = v) as Hcounts.
  { destruct Htidy' as [letter ns cs Hkeys Hnodup _ Hpos].
    unfold Node.get_letters_count, Node.get_letter_count. simpl.
    rewrite Hkeys in Hnodup. intros c v. split.
    - intros Hin. pose proof (dict_get_NoDup cs c v Hnodup Hin) as Hget.
      rewrite Hget. split; [|done].
      by apply (dict_values_get_Forall (λ v, 1 ≤ v) cs c v).
    - intros [Hv Hget]. destruct (dict_get c cs) as [v'|] eqn:E; [|lia].
      subst v'. by apply dict_get_elem_of. }
  split_and!.
  - destruct Htidy' as [letter ns cs Hkeys Hnodup _ _]. simpl.
    unfold Node.get_letters_count. simpl. by rewrite <- Hkeys.
  - intros c. split.
    + intros Hson.
      destruct Htidy' as [letter ns cs Hkeys Hnodup _ Hpos].
      unfold Node.get_son, Node.get_letter_count in *. simpl in *.
      apply dict_get_Some_keys in Hson. rewrite Hkeys in Hson.
      apply dict_get_Some_keys in Hson as [v Hv]. rewrite Hv.
      by apply (dict_values_get_Forall (λ v, 1 ≤ v) cs c v).
    + intros Hpos.
      apply (tidy_counts_sons nd c (Node.get_letter_count nd c) Htidy').
      by apply Hcounts.
  - intros c v. rewrite k_follow_freq_descend, Hnd, Hcounts.
    split; intros [Hv Heq]; (split; [done|]); congruence.
Qed.

Lemma node_counts_witness :
  let text := py_str "abcab" in
  let tr := built no_tree (MarkovModelTree.__init__ text 2) in
  let nd := default (Node.__init__ None)
              (descend (MarkovModelTree._root tr) (py_str "ab")) in
  NoDup (dict_keys (Node.get_letters_count nd))
  ∧ (∀ c, is_Some (Node.get_son nd c) ↔ 1 ≤ Node.get_letter_count nd c)
  ∧ (∀ c v, (c, v) ∈ Node.get_letters_count nd
            ↔ 1 ≤ v ∧ MarkovModelTree.k_follow_freq tr (py_str "ab") c = Ok v).
Proof.
  intros text tr nd. apply (node_counts text 2 tr (py_str "ab") nd).
  - vm_compute. reflexivity.
  - vm_compute. reflexivity.
Defined.
